(** * Verification of the memes-quest indexing service

    Shallow embedding of [app/main.py] ([index_images], [search_images])
    and [app/services/milvus_service.py] ([MilvusService]).  Strings are
    Rocq byte strings; Python sets of paths are stdpp [gset string].  The
    vector store and the embedding provider are external: they appear as
    oracles (functions or an abstract state with operations). *)

From Stdlib Require Import String Ascii List Arith Lia.
From stdpp Require Import base gmap sets list strings.
Import ListNotations.
Open Scope string_scope.

(* ------------------------------------------------------------------ *)
(** ** Python string helpers *)

(** [os.path.sep] on POSIX. *)
Definition sep : ascii := "/"%char.

(** [str.startswith]. *)
Definition startswith (s pre : string) : bool := String.prefix pre s.

(** [str.endswith]. *)
Definition endswith (s suf : string) : bool :=
  Nat.leb (String.length suf) (String.length s) &&
  String.eqb (substring (String.length s - String.length suf) (String.length suf) s) suf.

(** [str.lower] on ASCII letters (other bytes unchanged). *)
Definition lower_char (c : ascii) : ascii :=
  let n := nat_of_ascii c in
  if Nat.leb 65 n && Nat.leb n 90 then ascii_of_nat (n + 32) else c.

Fixpoint lower (s : string) : string :=
  match s with
  | EmptyString => EmptyString
  | String c s' => String (lower_char c) (lower s')
  end.

(** [s.lstrip(c)] and [s.rstrip(c)] for a single character [c]. *)
Fixpoint lstrip_char (c : ascii) (s : string) : string :=
  match s with
  | String d s' => if Ascii.eqb c d then lstrip_char c s' else s
  | EmptyString => EmptyString
  end.

Fixpoint rev_str (s : string) : string :=
  match s with
  | EmptyString => EmptyString
  | String c s' => rev_str s' ++ String c EmptyString
  end.

Definition rstrip_char (c : ascii) (s : string) : string :=
  rev_str (lstrip_char c (rev_str s)).

(** [s.strip(c)]. *)
Definition strip_char (c : ascii) (s : string) : string :=
  rstrip_char c (lstrip_char c s).

(** Python truthiness of a [str] / an optional [str]. *)
Definition truthy (s : string) : bool := negb (String.eqb s "").

Definition truthy_opt (o : option string) : bool :=
  match o with Some s => truthy s | None => false end.

(** The last path component (the [file] of [os.walk]). *)
Fixpoint basename_aux (s acc : string) : string :=
  match s with
  | EmptyString => acc
  | String c s' =>
      if Ascii.eqb c sep then basename_aux s' EmptyString
      else basename_aux s' (acc ++ String c EmptyString)
  end.

Definition basename (s : string) : string := basename_aux s EmptyString.

(* ------------------------------------------------------------------ *)
(** ** The image directory and the local walk ([index_images], lines 54-89) *)

(** The tree under [IMAGE_DIR].  [fs_files] lists every regular file under [IMAGE_DIR] by its path relative to
    [IMAGE_DIR] ([os.path.relpath(full_path, IMAGE_DIR)]), [fs_dirs] every
    sub-directory the same way.  Category names are taken canonical
    (no [.] or [..] components, no doubled separators). *)
Record FS := { fs_files : list string; fs_dirs : list string }.

(** [os.path.isdir(os.path.join(IMAGE_DIR, clean))]: the image directory
    itself exists (it is created at start-up). *)
Definition isdir (fs : FS) (clean : string) : bool :=
  String.eqb clean "" || existsb (String.eqb clean) (fs_dirs fs).

(** [os.walk(os.path.join(IMAGE_DIR, clean))], each file given by its
    path relative to [IMAGE_DIR]. *)
Definition walk (fs : FS) (clean : string) : list string :=
  if String.eqb clean "" then fs_files fs
  else List.filter (fun p => startswith p (clean ++ "/")) (fs_files fs).

(** The recognised extensions, line 78. *)
Definition image_exts : list string := [".png"; ".jpg"; ".jpeg"; ".gif"; ".bmp"].

Definition is_image_name (file : string) : bool :=
  existsb (endswith (lower file)) image_exts.

(** The result of lines 54-62: [milvus_category_prefix] and the [clean]
    directory that is walked, or the 404 error. *)
Inductive index_error :=
  | Err404 (clean : string)          (* category directory not found *)
  | Err500Scan.                      (* get_all_file_paths raised, line 71 *)

Record Scope := {
  sc_category : option string;       (* the [category] argument *)
  sc_prefix : option string;         (* [milvus_category_prefix] *)
  sc_clean : string                  (* directory walked, relative to IMAGE_DIR *)
}.

Definition resolve_scope (fs : FS) (category : option string)
  : index_error + Scope :=
  if truthy_opt category then
    let c := match category with Some c => c | None => "" end in
    let clean := strip_char sep c in
    if negb (isdir fs clean) then inl (Err404 clean)
    else inr {| sc_category := category; sc_prefix := Some (clean ++ "/");
                sc_clean := clean |}
  else inr {| sc_category := category; sc_prefix := None; sc_clean := "" |}.

(** Lines 73-89: [local_image_relative_paths]. *)
Definition keep_local (sc : Scope) (rel : string) : bool :=
  is_image_name (basename rel) &&
  (if truthy_opt (sc_category sc) then
     match sc_prefix sc with
     | Some pre => startswith rel pre
     | None => true
     end
   else true).

Definition local_paths (fs : FS) (sc : Scope) : gset string :=
  list_to_set (List.filter (keep_local sc) (walk fs (sc_clean sc))).

(** Lines 93-94. *)
Definition reconcile (local indexed : gset string) : gset string * gset string :=
  (local ∖ indexed, indexed ∖ local).

(* ------------------------------------------------------------------ *)
(** ** The vector store as seen by the bulk scan
       ([_get_all_entities_iter], [get_all_file_paths], [count_entities]) *)

(** A row as returned by [client.query]: its primary key and the
    [file_path] field ([entity.get('file_path')], [None] when absent). *)
Record Entity := { ent_id : Z; ent_path : option string }.

(** The two store calls the scan makes.  [stats_row_count] is
    [get_collection_stats(...)['row_count']] ([None]: the call raised);
    [query_page limit offset] is [client.query(filter="", limit, offset)]
    ([None]: the call raised). *)
Record Client := {
  stats_row_count : option nat;
  query_page : nat -> nat -> option (list Entity)
}.

(** [count_entities]: 0 when the statistics call raises. *)
Definition count_entities (c : Client) : nat :=
  match stats_row_count c with Some n => n | None => 0 end.

(** The [while fetched_count < total_entities] loop of
    [_get_all_entities_iter]; [None] is an exception escaping it.  Every
    iteration that does not leave the loop adds at least one row to
    [fetched], so [total] iterations are enough: [fuel] starts at [total]
    (see [scan_loop_fuel] below). *)
Fixpoint scan_loop (c : Client) (fuel limit total fetched offset : nat)
  (acc : list Entity) : option (list Entity) :=
  match fuel with
  | O => Some acc
  | S fuel' =>
      if Nat.ltb fetched total then
        match query_page c limit offset with
        | None => None
        | Some [] => Some acc
        | Some results =>
            let acc' := (acc ++ results)%list in
            let n := length results in
            if Nat.ltb n limit then Some acc'
            else scan_loop c fuel' limit total (fetched + n) (offset + n) acc'
        end
      else Some acc
  end.

Definition get_all_entities_iter (c : Client) (batch_size : nat)
  : option (list Entity) :=
  let total := count_entities c in
  if Nat.eqb total 0 then Some []
  else scan_loop c total batch_size total 0 0 [].

(** [if file_path: if category_prefix: ... startswith ... else add]. *)
Definition keep_path (category_prefix : option string) (fp : option string)
  : option string :=
  match fp with
  | Some p =>
      if truthy p then
        match category_prefix with
        | Some pre =>
            if truthy pre then (if startswith p pre then Some p else None)
            else Some p
        | None => Some p
        end
      else None
  | None => None
  end.

Definition collect_paths (category_prefix : option string) (ents : list Entity)
  : gset string :=
  list_to_set (omap (fun e => keep_path category_prefix (ent_path e)) ents).

(** [get_all_file_paths]; the result type admits an exception ([None]),
    the body catches every exception of the scan and returns the set
    built so far, which is still empty at that point. *)
Definition get_all_file_paths (c : Client) (category_prefix : option string)
  : option (gset string) :=
  match get_all_entities_iter c 1000 with
  | None => Some ∅
  | Some ents => Some (collect_paths category_prefix ents)
  end.

(** A store that answers faithfully: its statistics report the row
    count and [query] returns the [limit] rows from [offset]. *)
Definition honest_client (rows : list Entity) : Client :=
  {| stats_row_count := Some (length rows);
     query_page := fun limit offset => Some (firstn limit (skipn offset rows)) |}.

(* ------------------------------------------------------------------ *)
(** ** [os.path.splitext] (posixpath) *)

(** [p.rfind(c)], [-1] when absent. *)
Fixpoint rfind_aux (c : ascii) (s : string) (i : nat) (best : Z) : Z :=
  match s with
  | EmptyString => best
  | String d s' =>
      rfind_aux c s' (S i) (if Ascii.eqb c d then Z.of_nat i else best)
  end.

Definition rfind (c : ascii) (s : string) : Z := rfind_aux c s 0 (-1).

(** [os.path.splitext(p)[0]]: the dot must follow the last separator and
    a leading run of dots in the file name does not start an extension. *)
Definition splitext_root (p : string) : string :=
  let sepIndex := rfind sep p in
  let dotIndex := rfind "."%char p in
  if Z.ltb sepIndex dotIndex then
    let start := Z.to_nat (sepIndex + 1) in
    let d := Z.to_nat dotIndex in
    if existsb (fun k => match String.get k p with
                         | Some ch => negb (Ascii.eqb ch "."%char)
                         | None => false
                         end)
               (seq start (d - start))
    then substring 0 d p
    else p
  else p.

(* ------------------------------------------------------------------ *)
(** ** [index_images] *)

(** The JSON report of lines 143-151 (the message omitted). *)
Record Report := {
  files_on_disk_scanned : nat;
  files_in_milvus_before_op_for_category : nat;
  new_files_added_to_milvus : nat;
  files_deleted_from_milvus : nat;
  failed_to_add_count : nat;
  total_in_milvus_after_op : nat
}.

(** Lines 54-91: the scope, [local_image_relative_paths] and
    [indexed_file_paths_in_milvus]. *)
Definition index_scan (fs : FS) (client : Client) (category : option string)
  : index_error + (Scope * gset string * gset string) :=
  match resolve_scope fs category with
  | inl e => inl e
  | inr sc =>
      match get_all_file_paths client (sc_prefix sc) with
      | None => inl Err500Scan
      | Some indexed => inr (sc, local_paths fs sc, indexed)
      end
  end.

Section Index.
(** An embedding vector. *)
Variable vec : Type.
(** [get_embedding(text)]; [None]: it raised. *)
Variable get_embedding : string -> option vec.
(** [milvus_service.insert_vectors(vectors, paths)]; [false]: it raised. *)
Variable insert_vectors : list vec -> list string -> bool.
(** [milvus_service.delete_vectors_by_file_paths(paths)]; [None]: it raised. *)
Variable delete_vectors_by_file_paths : list string -> option nat.
(** [milvus_service.count_entities()] after the insert and delete calls. *)
Variable count_after : nat.

(** Lines 109-122: embeddings, paths embedded, embedding failures. *)
Fixpoint embed_loop (to_add : list string) : list vec * list string * nat :=
  match to_add with
  | [] => ([], [], 0)
  | rel :: rest =>
      let '(es, fs, failed) := embed_loop rest in
      match get_embedding (splitext_root rel) with
      | Some e => (e :: es, rel :: fs, failed)
      | None => (es, fs, S failed)
      end
  end.

(** Lines 101-132: [(added_count, failed_add_count)], iterating over
    [files_to_add_relative_paths] in the order given. *)
Definition add_phase (to_add : list string) : nat * nat :=
  match to_add with
  | [] => (0, 0)
  | _ =>
      let '(embeddings, filenames, failed) := embed_loop to_add in
      match embeddings with
      | [] => (0, failed)
      | _ =>
          if insert_vectors embeddings filenames
          then (length filenames, failed)
          else (0, failed + length filenames)
      end
  end.

(** Lines 134-139. *)
Definition delete_phase (to_delete : list string) : nat :=
  match to_delete with
  | [] => 0
  | _ => match delete_vectors_by_file_paths to_delete with
         | Some n => n
         | None => 0
         end
  end.

(** Lines 54-151, for an available service with a configured key. *)
Definition index_images (fs : FS) (client : Client) (category : option string)
  : index_error + Report :=
  match index_scan fs client category with
  | inl e => inl e
  | inr (sc, local, indexed) =>
      let '(to_add, to_delete) := reconcile local indexed in
      let '(added, failed) := add_phase (elements to_add) in
      let deleted := delete_phase (elements to_delete) in
      inr {| files_on_disk_scanned := size local;
             files_in_milvus_before_op_for_category := size indexed;
             new_files_added_to_milvus := added;
             files_deleted_from_milvus := deleted;
             failed_to_add_count := failed;
             total_in_milvus_after_op := count_after |}
  end.
End Index.

(* ------------------------------------------------------------------ *)
(** ** [search_images], lines 181-234 *)

(** A hit of [search_vectors] as the endpoint reads it: [res.get('id')]
    and [res.get('file_path')].  Hits come nearest first. *)
Record Hit := { hit_id : Z; hit_path : option string }.

(** [construct_image_url(filename, request_url_base)]. *)
Definition construct_image_url (image_dir filename request_url_base : string)
  : string :=
  let base := if endswith request_url_base "/" then request_url_base
              else request_url_base ++ "/" in
  base ++ image_dir ++ "/" ++ filename.

(** The paths of the hits whose [file_path] is truthy, in order. *)
Definition hit_paths (results : list Hit) : list string :=
  omap (fun r => if truthy_opt (hit_path r) then hit_path r else None) results.

Definition any_path (results : list Hit) : bool :=
  existsb (fun r => truthy_opt (hit_path r)) results.

(** [image_urls] after the filtering of lines 184-213. *)
Definition filter_results (image_dir base : string) (category : option string)
  (results : list Hit) : list string :=
  let url p := construct_image_url image_dir p base in
  match results with
  | [] => []
  | _ =>
      if truthy_opt category then
        let clean := strip_char sep (match category with Some c => c | None => "" end) in
        if truthy clean then
          map url (List.filter (fun p => startswith p (clean ++ "/")) (hit_paths results))
        else map url (hit_paths results)
      else map url (hit_paths results)
  end.

(** Lines 181-234: the [data] list of the response. *)
Definition search_response (image_dir base : string) (category : option string)
  (results : list Hit) : list string :=
  let image_urls := filter_results image_dir base category results in
  match image_urls, results with
  | [], _ :: _ =>
      let log_message_prefix := truthy_opt category && any_path results in
      if negb log_message_prefix && negb (any_path results) then []
      else match hit_paths results with
           | p :: _ => [construct_image_url image_dir p base]
           | [] => []
           end
  | _, _ => image_urls
  end.

(* ------------------------------------------------------------------ *)
(** ** [delete_vectors_by_file_paths] *)

(** What [client.delete(ids=...)] hands back: a list of deleted primary
    keys, any other value (such as a [{"delete_count": n}] dict), or an
    exception. *)
Inductive DeleteResult :=
  | DelPKs (pks : list Z)
  | DelDict (delete_count : nat)
  | DelRaised.

(** [p.replace("'", "''")]. *)
Fixpoint escape_quotes (p : string) : string :=
  match p with
  | EmptyString => EmptyString
  | String c p' =>
      if Ascii.eqb c "'"%char then String c (String c (escape_quotes p'))
      else String c (escape_quotes p')
  end.

(** [", ".join(items)]. *)
Fixpoint join_comma (items : list string) : string :=
  match items with
  | [] => ""
  | [x] => x
  | x :: rest => x ++ ", " ++ join_comma rest
  end.

(** Lines 110-116: [query_expr_for_ids]. *)
Definition query_expr_for_ids (batch_paths : list string) : string :=
  "file_path in [" ++
  join_comma (map (fun p => "'" ++ escape_quotes p ++ "'") batch_paths) ++ "]".

(** [range(0, len(file_paths), batch_size)]. *)
Definition batch_starts (batch_size len : nat) : list nat :=
  map (fun k => k * batch_size) (seq 0 ((len + batch_size - 1) / batch_size)).

(** [file_paths[i:i + batch_size]]. *)
Definition slice (i batch_size : nat) (l : list string) : list string :=
  firstn batch_size (skipn i l).

Definition batches (batch_size : nat) (file_paths : list string) : list (list string) :=
  map (fun i => slice i batch_size file_paths) (batch_starts batch_size (length file_paths)).

(** Lines 127-130: [ids_to_delete]. *)
Definition ids_of (query_results : option (list Entity)) : list Z :=
  match query_results with
  | Some res => map ent_id (List.filter (fun e => negb (Z.eqb (ent_id e) 0)) res)
  | None => []
  end.

(** Line 146. *)
Definition num_deleted (r : DeleteResult) : nat :=
  match r with DelPKs l => length l | _ => 0 end.

(** What one iteration of the loop did, as its log lines report it: the
    batch, the answer of the id lookup ([None]: it raised) and, when the
    delete call was made, its ids and its answer. *)
Record BatchEvent := {
  ev_batch : list string;
  ev_lookup : option (list Entity);
  ev_delete : option (list Z * DeleteResult)
}.

Definition ev_deleted (ev : BatchEvent) : nat :=
  match ev_delete ev with Some (_, r) => num_deleted r | None => 0 end.

Section Delete.
(** The store's state and its two calls: [client.query(filter,
    output_fields=['id'], limit)] ([None]: it raised), which leaves the
    state unchanged, and [client.delete(ids)]. *)
Variable St : Type.
Variable query_by_filter : St -> string -> nat -> option (list Entity).
Variable delete_by_ids : St -> list Z -> St * DeleteResult.

(** Lines 108-152, one batch. *)
Definition delete_batch (s : St) (batch_paths : list string)
  : St * nat * BatchEvent :=
  let expr := query_expr_for_ids batch_paths in
  let lookup := query_by_filter s expr (length batch_paths + 5) in
  let ids := ids_of lookup in
  match ids with
  | [] => (s, 0, {| ev_batch := batch_paths; ev_lookup := lookup; ev_delete := None |})
  | _ =>
      let '(s', r) := delete_by_ids s ids in
      (s', num_deleted r,
       {| ev_batch := batch_paths; ev_lookup := lookup; ev_delete := Some (ids, r) |})
  end.

(** The [for i in range(...)] loop: final state, [deleted_count_total],
    and the log. *)
Fixpoint delete_loop (s : St) (starts : list nat) (file_paths : list string)
  : St * nat * list BatchEvent :=
  match starts with
  | [] => (s, 0, [])
  | i :: rest =>
      let '(s1, n1, ev) := delete_batch s (slice i 500 file_paths) in
      let '(s2, n2, evs) := delete_loop s1 rest file_paths in
      (s2, n1 + n2, ev :: evs)
  end.

Definition delete_vectors_by_file_paths (s : St) (file_paths : list string)
  : St * nat * list BatchEvent :=
  match file_paths with
  | [] => (s, 0, [])
  | _ => delete_loop s (batch_starts 500 (length file_paths)) file_paths
  end.
End Delete.

(* ------------------------------------------------------------------ *)
(** ** [get_embedding] (embedding_service.py) *)

Inductive EmbedError (perr : Type) :=
  | EmbedValueError                  (* empty text, line 12 *)
  | EmbedProviderError (e : perr).   (* the provider's own exception, re-raised at line 19 *)
Arguments EmbedValueError {perr}.
Arguments EmbedProviderError {perr} e.

(** [get_embedding(text)]; [provider] is [client.embeddings.create(...)]
    followed by [.data[0].embedding], answering the embedding or the
    exception it raised ([perr]), which [get_embedding] re-raises as is. *)
Definition get_embedding_checked {perr vec} (provider : string -> perr + vec)
  (text : string) : EmbedError perr + vec :=
  if negb (truthy text) then inl EmbedValueError
  else match provider text with
       | inr v => inr v
       | inl e => inl (EmbedProviderError e)
       end.

(* ------------------------------------------------------------------ *)
(** ** [MilvusService.insert_vectors] *)

Inductive InsertError :=
  | InsertValueError                 (* line 159 *)
  | InsertClientError.               (* client.insert raised, line 170 *)

(** [client_insert data] is [client.insert(data=data)['ids']] ([None]: it
    raised); a record is [{"embedding": vec, "file_path": path}]. *)
Definition insert_vectors_checked {vec}
  (client_insert : list (vec * string) -> option (list Z))
  (vectors : list vec) (file_paths : list string) : InsertError + list Z :=
  if match vectors with [] => true | _ => false end ||
     match file_paths with [] => true | _ => false end ||
     negb (Nat.eqb (length vectors) (length file_paths))
  then inl InsertValueError
  else match client_insert (combine vectors file_paths) with
       | Some ids => inr ids
       | None => inl InsertClientError
       end.

(* ------------------------------------------------------------------ *)
(** ** The [/search/] endpoint, lines 160-234 *)

(** [service_up] is [milvus_service] being set (line 160), [api_key] is
    [OPENAI_API_KEY] (line 162); [provider] is the embedding call of
    [get_embedding], and [is_value_error e] is [isinstance(e, ValueError)]
    for an exception it raised (line 168); [search_vectors] is
    [milvus_service.search_vectors(query_embedding, n)] ([None]: it
    raised).  An error is the status code of the [HTTPException]. *)
Definition search_images {perr vec} (service_up : bool) (api_key : option string)
  (is_value_error : perr -> bool) (provider : string -> perr + vec)
  (search_vectors : vec -> nat -> option (list Hit))
  (image_dir base q : string) (n : nat) (category : option string)
  : nat + list string :=
  if negb service_up then inl 503
  else if negb (truthy_opt api_key) then inl 500
  else match get_embedding_checked provider q with
       | inl EmbedValueError => inl 400
       | inl (EmbedProviderError e) => if is_value_error e then inl 400 else inl 500
       | inr query_embedding =>
           match search_vectors query_embedding n with
           | None => inl 500
           | Some search_results =>
               inr (search_response image_dir base category search_results)
           end
       end.

(* ------------------------------------------------------------------ *)
(** ** Reading back the id-lookup filter

    A reader for the [file_path in ['...', '...']] expression built by
    [delete_vectors_by_file_paths], following the quote-doubling
    convention its escaping is written for: inside a literal, [''] stands
    for one quote and a single quote closes the literal. *)

(** The rest of a literal after its opening quote: its text and what
    follows the closing quote. *)
Fixpoint read_lit (s : string) : option (string * string) :=
  match s with
  | EmptyString => None
  | String c s' =>
      if Ascii.eqb c "'"%char then
        match s' with
        | String c2 s'' =>
            if Ascii.eqb c2 "'"%char then
              option_map (fun '(x, r) => (String c x, r)) (read_lit s'')
            else Some (EmptyString, s')
        | EmptyString => Some (EmptyString, EmptyString)
        end
      else option_map (fun '(x, r) => (String c x, r)) (read_lit s')
  end.

(** The literals of a list body [' ... ', ' ... ']], up to [fuel] of them. *)
Fixpoint read_list (fuel : nat) (s : string) : option (list string) :=
  match fuel with
  | O => None
  | S fuel' =>
      match s with
      | String q s' =>
          if Ascii.eqb q "'"%char then
            match read_lit s' with
            | Some (x, String "]" EmptyString) => Some [x]
            | Some (x, String "," (String " " rest)) =>
                option_map (cons x) (read_list fuel' rest)
            | _ => None
            end
          else None
      | EmptyString => None
      end
  end.

Fixpoint strip_prefix (pre s : string) : option string :=
  match pre, s with
  | EmptyString, _ => Some s
  | String a pre', String b s' => if Ascii.eqb a b then strip_prefix pre' s' else None
  | String _ _, EmptyString => None
  end.

Definition parse_in_filter (s : string) : option (list string) :=
  match strip_prefix "file_path in [" s with
  | Some body => read_list (String.length body) body
  | None => None
  end.

(* ================================================================== *)
(** * Properties *)

(** A store reporting [count] rows whose pages are slices of [rows]. *)
Definition client_of (count : option nat) (rows : list Entity) : Client :=
  {| stats_row_count := count;
     query_page := fun limit offset => Some (firstn limit (skipn offset rows)) |}.

Lemma honest_client_of rows : honest_client rows = client_of (Some (length rows)) rows.
Proof. reflexivity. Qed.

Lemma firstn_add_skipn {A} (a b : nat) (l : list A) :
  (firstn a l ++ firstn b (skipn a l))%list = firstn (a + b) l.
Proof.
  revert l; induction a as [|a IH]; intros [|x l]; simpl; try reflexivity.
  - by rewrite firstn_nil.
  - f_equal. apply IH.
Qed.

(** The paging loop over a faithful store returns all rows, as long as
    the reported total does not under-count them. *)
Lemma scan_loop_complete count rows limit total :
  0 < limit -> length rows <= total ->
  forall fuel fetched acc,
  fetched <= length rows -> acc = firstn fetched rows -> total <= fuel + fetched ->
  scan_loop (client_of count rows) fuel limit total fetched fetched acc = Some rows.
Proof.
  intros Hlim Htot fuel. induction fuel as [|fuel IH]; intros fetched acc Hle Hacc Hfuel.
  - simpl. subst acc. rewrite firstn_all2 by lia. reflexivity.
  - simpl. destruct (Nat.ltb fetched total) eqn:Hlt.
    + destruct (firstn limit (skipn fetched rows)) as [|e l] eqn:Hpage.
      * subst acc. f_equal. apply firstn_all2.
        assert (Hl := length_firstn limit (skipn fetched rows)).
        rewrite Hpage, length_skipn in Hl. simpl in Hl. lia.
      * assert (Hl := length_firstn limit (skipn fetched rows)).
        rewrite Hpage, length_skipn in Hl.
        assert (Happ : (acc ++ e :: l)%list = firstn (fetched + length (e :: l)) rows).
        { subst acc. rewrite <- Hpage, firstn_add_skipn.
          rewrite length_firstn, length_skipn.
          destruct (Nat.le_ge_cases limit (length rows - fetched)).
          - rewrite Nat.min_l by lia. reflexivity.
          - rewrite Nat.min_r by lia. rewrite !firstn_all2 by lia. reflexivity. }
        destruct (Nat.ltb (length (e :: l)) limit) eqn:Hshort.
        -- apply Nat.ltb_lt in Hshort. rewrite Happ. f_equal.
           apply firstn_all2. lia.
        -- apply Nat.ltb_ge in Hshort.
           apply IH; [lia | exact Happ | lia].
    + apply Nat.ltb_ge in Hlt. subst acc. rewrite firstn_all2 by lia. reflexivity.
Qed.

Lemma get_all_entities_complete n rows :
  length rows <= n ->
  get_all_entities_iter (client_of (Some n) rows) 1000 = Some rows.
Proof.
  intros Hn. unfold get_all_entities_iter, count_entities. simpl.
  destruct (Nat.eqb n 0) eqn:H0.
  - apply Nat.eqb_eq in H0. subst n. destruct rows; [reflexivity | simpl in Hn; lia].
  - apply Nat.eqb_neq in H0. apply scan_loop_complete; simpl; try reflexivity; lia.
Qed.

Lemma get_all_file_paths_complete n rows pre :
  length rows <= n ->
  get_all_file_paths (client_of (Some n) rows) pre = Some (collect_paths pre rows).
Proof.
  intros Hn. unfold get_all_file_paths. by rewrite get_all_entities_complete.
Qed.

Lemma elem_of_collect_paths pre rows p :
  p ∈ collect_paths pre rows <->
  (exists e, In e rows /\ keep_path pre (ent_path e) = Some p).
Proof.
  unfold collect_paths. rewrite elem_of_list_to_set, list_elem_of_omap.
  split; intros [e [He Hk]]; exists e; split; try exact Hk;
    by apply list_elem_of_In.
Qed.

Lemma keep_path_spec pre fp p :
  keep_path pre fp = Some p <->
  fp = Some p /\ truthy p = true /\
  match pre with
  | Some q => truthy q = false \/ startswith p q = true
  | None => True
  end.
Proof.
  unfold keep_path. destruct fp as [s|]; [|split; [discriminate | intros [? _]; discriminate]].
  destruct (truthy s) eqn:Hs; [|split; [discriminate | intros [Hp [Ht _]]; congruence]].
  destruct pre as [q|].
  - destruct (truthy q) eqn:Hq.
    + destruct (startswith s q) eqn:Hst.
      * split; [intros H; inversion H; subst; auto | intros [Hp _]; congruence].
      * split; [discriminate | intros [Hp [_ [H|H]]]; congruence].
    + split; [intros H; inversion H; subst; auto | intros [Hp _]; congruence].
  - split; [intros H; inversion H; subst; auto | intros [Hp _]; congruence].
Qed.

(** ** C1 *)

(** C1: the reconciliation computes [to_add = local ∖ indexed] and
    [to_delete = indexed ∖ local]; the two are disjoint, removing
    [to_delete] from the indexed set and adding [to_add] gives back the
    local set; and on Scenario A the result is [({cats/a.png}, {dogs/c.gif})]. *)
Theorem reconcile_correct :
  (forall local indexed : gset string,
     let '(to_add, to_delete) := reconcile local indexed in
     to_add = local ∖ indexed /\ to_delete = indexed ∖ local /\
     to_add ## to_delete /\ (indexed ∖ to_delete) ∪ to_add = local) /\
  reconcile {["cats/a.png"; "dogs/b.jpg"]} {["dogs/b.jpg"; "dogs/c.gif"]}
  = ({["cats/a.png"]}, {["dogs/c.gif"]}).
Proof.
  split.
  - intros local indexed. simpl. split; [reflexivity|]. split; [reflexivity|].
    split; [set_solver|].
    apply set_eq. intros x. rewrite elem_of_union, !elem_of_difference.
    destruct (decide (x ∈ local)); destruct (decide (x ∈ indexed)); tauto.
  - vm_compute. reflexivity.
Qed.

(** The fuel of [scan_loop] never cuts the Python loop short: with
    [total <= fuel + fetched], more fuel computes the same result. *)
Lemma scan_loop_fuel c limit total :
  forall fuel k fetched offset acc, total <= fuel + fetched ->
  scan_loop c (fuel + k) limit total fetched offset acc =
  scan_loop c fuel limit total fetched offset acc.
Proof.
  intros fuel. induction fuel as [|fuel IH]; intros k fetched offset acc Hf.
  - destruct k as [|k]; [reflexivity|]. simpl.
    replace (Nat.ltb fetched total) with false
      by (symmetry; apply Nat.ltb_ge; lia). reflexivity.
  - simpl. destruct (Nat.ltb fetched total); [|reflexivity].
    destruct (query_page c limit offset) as [[|e l]|]; try reflexivity.
    destruct (Nat.ltb (length (e :: l)) limit); [reflexivity|].
    apply IH. simpl. lia.
Qed.

Lemma scan_loop_pages count rows total K :
  total <= 1000 * K -> 1000 * K < total + 1000 ->
  forall fuel j acc,
  1000 * j <= length rows -> j <= K -> acc = firstn (1000 * j) rows ->
  total <= fuel + 1000 * j ->
  scan_loop (client_of count rows) fuel 1000 total (1000 * j) (1000 * j) acc
  = Some (firstn (1000 * K) rows).
Proof.
  intros HK1 HK2 fuel. induction fuel as [|fuel IH]; intros j acc Hle HjK Hacc Hfuel.
  - cbn [scan_loop]. subst acc. do 2 f_equal. lia.
  - cbn [scan_loop query_page client_of]. destruct (Nat.ltb (1000 * j) total) eqn:Hlt.
    + apply Nat.ltb_lt in Hlt.
      assert (Hl := length_firstn 1000 (skipn (1000 * j) rows)).
      rewrite length_skipn in Hl.
      destruct (firstn 1000 (skipn (1000 * j) rows)) as [|e l] eqn:Hpage.
      * cbn [length] in Hl. subst acc. f_equal.
        rewrite !firstn_all2 by lia. reflexivity.
      * assert (Happ : (acc ++ e :: l)%list = firstn (1000 * j + 1000) rows).
        { subst acc. rewrite <- Hpage. apply firstn_add_skipn. }
        destruct (Nat.ltb (length (e :: l)) 1000) eqn:Hshort.
        -- apply Nat.ltb_lt in Hshort. rewrite Happ. f_equal.
           rewrite !firstn_all2 by lia. reflexivity.
        -- apply Nat.ltb_ge in Hshort.
           assert (H1000 : length (e :: l) = 1000) by lia. rewrite H1000.
           replace (1000 * j + 1000) with (1000 * S j) by lia.
           apply IH; [lia | lia | rewrite Happ; f_equal; lia | lia].
    + apply Nat.ltb_ge in Hlt. subst acc. do 2 f_equal. lia.
Qed.

(** With the row count [n] the store reports, the scan returns exactly the
    first [ceil(n/1000)] pages of rows. *)
Lemma scan_exact (count : option nat) (rows : list Entity) :
  get_all_entities_iter (client_of count rows) 1000
  = Some (firstn (1000 * ((count_entities (client_of count rows) + 1000 - 1) / 1000)) rows).
Proof.
  destruct count as [n|]; [|reflexivity].
  change (count_entities (client_of (Some n) rows)) with n.
  pose proof (Nat.div_mod_eq (n + 1000 - 1) 1000) as Hd.
  pose proof (Nat.mod_upper_bound (n + 1000 - 1) 1000) as Hm.
  remember ((n + 1000 - 1) / 1000) as K eqn:HK.
  remember ((n + 1000 - 1) mod 1000) as r eqn:Hr.
  unfold get_all_entities_iter, count_entities. cbn [stats_row_count client_of].
  destruct (Nat.eqb n 0) eqn:H0.
  - apply Nat.eqb_eq in H0. subst n. replace K with 0 by (subst K; reflexivity).
    reflexivity.
  - apply Nat.eqb_neq in H0.
    change 0 with (1000 * 0) at 2 3.
    apply (scan_loop_pages (Some n) rows n K); [lia | lia | lia | lia | reflexivity | lia].
Qed.

(** ** C7 *)

(** C7 (as amended): the scan pages by 1000 until the reported row count
    [n] is reached or a short or empty page arrives, so it returns exactly
    the first [1000 * ceil(n/1000)] stored rows (none when the statistics
    call fails and [n] is 0).  It returns every row exactly when the rows
    fit in those pages, in particular whenever [n] is at least their
    number, and otherwise misses the rows beyond them.  [get_all_file_paths]
    then returns exactly the non-empty paths of the retrieved rows that
    start with the prefix (every non-empty path when the prefix is absent
    or empty), the prefix being applied to the rows already retrieved. *)
Theorem get_all_file_paths_complete_spec (count : option nat) (rows : list Entity)
  (pre : option string) :
  get_all_entities_iter (client_of count rows) 1000
  = Some (firstn (1000 * ((count_entities (client_of count rows) + 1000 - 1) / 1000)) rows) /\
  (get_all_entities_iter (client_of count rows) 1000 = Some rows <->
   length rows <= 1000 * ((count_entities (client_of count rows) + 1000 - 1) / 1000)) /\
  (length rows <= count_entities (client_of count rows) ->
   get_all_entities_iter (client_of count rows) 1000 = Some rows) /\
  exists paths, get_all_file_paths (client_of count rows) pre = Some paths /\
  forall p, p ∈ paths <->
    (exists e, In e (firstn (1000 * ((count_entities (client_of count rows) + 1000 - 1) / 1000))
                      rows) /\ ent_path e = Some p) /\ p <> "" /\
    match pre with Some q => q = "" \/ startswith p q = true | None => True end.
Proof.
  pose proof (scan_exact count rows) as Hs.
  set (M := 1000 * ((count_entities (client_of count rows) + 1000 - 1) / 1000)) in *.
  assert (Hfit : firstn M rows = rows <-> length rows <= M).
  { split; [|apply firstn_all2]. intros E.
    pose proof (length_firstn M rows) as Hl. rewrite E in Hl. lia. }
  assert (Hge : count_entities (client_of count rows) <= M).
  { subst M. set (n := count_entities (client_of count rows)).
    pose proof (Nat.div_mod_eq (n + 1000 - 1) 1000) as Hd.
    pose proof (Nat.mod_upper_bound (n + 1000 - 1) 1000) as Hm. lia. }
  split; [exact Hs|]. split.
  { rewrite Hs. split; [intros E; injection E as E; apply Hfit, E|].
    intros H. f_equal. apply Hfit, H. }
  split.
  { intros H. rewrite Hs. f_equal. apply Hfit. lia. }
  exists (collect_paths pre (firstn M rows)).
  split; [unfold get_all_file_paths; rewrite Hs; reflexivity|].
  intros p. rewrite elem_of_collect_paths. split.
  - intros [e [Hin Hk]]. apply keep_path_spec in Hk as (Hp & Ht & Hpre).
    split; [eauto|]. split.
    + intros ->. discriminate.
    + destruct pre as [q|]; [|exact I]. destruct Hpre as [Hq|Hq]; [left|right; exact Hq].
      unfold truthy in Hq. apply negb_false_iff, String.eqb_eq in Hq. exact Hq.
  - intros [[e [Hin Hp]] [Hne Hpre]]. exists e. split; [exact Hin|].
    apply keep_path_spec. split; [exact Hp|]. split.
    + unfold truthy. apply negb_true_iff, String.eqb_neq. exact Hne.
    + destruct pre as [q|]; [|exact I]. destruct Hpre as [->|Hq]; [left; reflexivity|right; exact Hq].
Qed.

(** 1001 stored rows: a reported count of 1 reads one full page of 1000
    and stops there; a reported count of 1001 reads a second, short page
    and returns all of them. *)
Definition rows_1001 : list Entity :=
  map (fun k => {| ent_id := Z.of_nat (S k); ent_path := Some "cats/a.png" |}) (seq 0 1001).

Lemma get_all_file_paths_complete_spec_witness :
  get_all_entities_iter (client_of (Some 1) rows_1001) 1000 = Some (firstn 1000 rows_1001) /\
  get_all_entities_iter (client_of (Some 1001) rows_1001) 1000 = Some rows_1001.
Proof.
  split.
  - exact (proj1 (get_all_file_paths_complete_spec (Some 1) rows_1001 None)).
  - apply (proj1 (proj2 (proj2 (get_all_file_paths_complete_spec (Some 1001) rows_1001 None)))).
    apply Nat.leb_le. vm_compute. reflexivity.
Defined.

(** C7 (counterexample): when the statistics call raises, [count_entities]
    answers 0 and the scan returns no path although the store holds
    ["cats/a.png"]. *)
Lemma get_all_file_paths_stats_failure :
  get_all_file_paths (client_of None [{| ent_id := 1; ent_path := Some "cats/a.png" |}]) None
  = Some ∅ /\
  get_all_file_paths (client_of None [{| ent_id := 1; ent_path := Some "cats/a.png" |}]) None
  <> Some {["cats/a.png"]}.
Proof.
  assert (E : get_all_file_paths
                (client_of None [{| ent_id := 1; ent_path := Some "cats/a.png" |}]) None
              = Some ∅) by reflexivity.
  split; [exact E|]. rewrite E. intros H.
  assert (H1 : (∅ : gset string) = {["cats/a.png"]}) by congruence.
  assert (Hin : "cats/a.png" ∈ ({["cats/a.png"]} : gset string)) by set_solver.
  rewrite <- H1 in Hin. set_solver.
Qed.

(** ** The local walk *)

Lemma elem_of_local_paths fs sc p :
  p ∈ local_paths fs sc <-> In p (walk fs (sc_clean sc)) /\ keep_local sc p = true.
Proof.
  unfold local_paths. rewrite elem_of_list_to_set, list_elem_of_In, filter_In.
  reflexivity.
Qed.

Lemma keep_local_empty sc : keep_local sc "" = false.
Proof. reflexivity. Qed.

Lemma truthy_sep_suffix clean : truthy (clean ++ "/") = true.
Proof. destruct clean; reflexivity. Qed.

(** Every local path passes the filter of [get_all_file_paths] for the
    prefix of its scope. *)
Lemma local_keep_path fs category sc p :
  resolve_scope fs category = inr sc -> p ∈ local_paths fs sc ->
  keep_path (sc_prefix sc) (Some p) = Some p.
Proof.
  intros Hsc Hp. apply elem_of_local_paths in Hp as [_ Hk].
  assert (Hne : truthy p = true).
  { unfold truthy. destruct (String.eqb p "") eqn:E; [|reflexivity].
    apply String.eqb_eq in E. subst p. by rewrite keep_local_empty in Hk. }
  apply keep_path_spec. split; [reflexivity|]. split; [exact Hne|].
  unfold resolve_scope in Hsc.
  destruct (truthy_opt category) eqn:Hc.
  - destruct (negb (isdir fs (strip_char sep
                (match category with Some c => c | None => "" end)))); [discriminate|].
    injection Hsc as <-. simpl. right.
    unfold keep_local in Hk. simpl in Hk. rewrite Hc in Hk.
    apply andb_prop in Hk as [_ Hk]. exact Hk.
  - injection Hsc as <-. exact I.
Qed.

(** ** C2 *)

(** The store after a run whose deletes and inserts all went through:
    rows whose path is in [to_delete] are gone, one row per path of
    [to_add] is added (with a store-assigned id). *)
Definition apply_run (new_id : string -> Z) (rows : list Entity)
  (to_add to_delete : gset string) : list Entity :=
  (List.filter (fun e => match ent_path e with
                         | Some p => negb (bool_decide (p ∈ to_delete))
                         | None => true
                         end) rows ++
   map (fun p => {| ent_id := new_id p; ent_path := Some p |}) (elements to_add))%list.

Lemma index_scan_honest fs rows category sc local indexed :
  index_scan fs (honest_client rows) category = inr (sc, local, indexed) ->
  resolve_scope fs category = inr sc /\ local = local_paths fs sc /\
  indexed = collect_paths (sc_prefix sc) rows.
Proof.
  unfold index_scan. destruct (resolve_scope fs category) as [e|sc'] eqn:Hsc;
    [discriminate|].
  rewrite honest_client_of, get_all_file_paths_complete by lia.
  intros H. injection H as <- <- <-. auto.
Qed.

(** C2: over a store that answers faithfully, once the inserts and deletes
    of a run are applied, a second run over the same scope and the same
    files sees the indexed set equal to the local set and reports zero
    files added and zero deleted. *)
Theorem index_images_idempotent (vec : Type) (get_embedding : string -> option vec)
  (insert_vectors : list vec -> list string -> bool)
  (delete_vectors : list string -> option nat) (count_after : nat)
  (fs : FS) (rows : list Entity) (category : option string) (new_id : string -> Z)
  (sc : Scope) (local indexed : gset string)
  (Hrun : index_scan fs (honest_client rows) category = inr (sc, local, indexed)) :
  let rows' := apply_run new_id rows (local ∖ indexed) (indexed ∖ local) in
  index_scan fs (honest_client rows') category = inr (sc, local, local) /\
  exists rep,
    index_images vec get_embedding insert_vectors delete_vectors count_after
      fs (honest_client rows') category = inr rep /\
    new_files_added_to_milvus rep = 0 /\ files_deleted_from_milvus rep = 0.
Proof.
  apply index_scan_honest in Hrun as (Hsc & -> & ->).
  set (L := local_paths fs sc). set (I := collect_paths (sc_prefix sc) rows).
  intros rows'.
  assert (Hscan : index_scan fs (honest_client rows') category = inr (sc, L, L)).
  { unfold index_scan. rewrite Hsc, honest_client_of, get_all_file_paths_complete by lia.
    do 2 f_equal. apply set_eq. intros p. rewrite elem_of_collect_paths. split.
    - intros [e [Hin Hk]]. unfold rows', apply_run in Hin.
      apply in_app_or in Hin as [Hin|Hin].
      + apply filter_In in Hin as [Hin Hd].
        apply keep_path_spec in Hk as Hk'. destruct Hk' as [Hp _].
        rewrite Hp in Hd. apply negb_true_iff, bool_decide_eq_false in Hd.
        assert (p ∈ I) by (apply elem_of_collect_paths; eauto).
        set_solver.
      + apply in_map_iff in Hin as [q [<- Hq]].
        apply keep_path_spec in Hk as [Hp _]. simpl in Hp. injection Hp as ->.
        apply list_elem_of_In, elem_of_elements in Hq. set_solver.
    - intros HpL. destruct (decide (p ∈ I)) as [HpI|HpI].
      + apply elem_of_collect_paths in HpI as [e [Hin Hk]].
        exists e. split; [|exact Hk]. apply in_or_app. left.
        apply filter_In. split; [exact Hin|].
        apply keep_path_spec in Hk as Hk'. destruct Hk' as [Hp _]. rewrite Hp.
        apply negb_true_iff, bool_decide_eq_false. set_solver.
      + exists {| ent_id := new_id p; ent_path := Some p |}. split.
        * apply in_or_app. right. apply in_map_iff. exists p. split; [reflexivity|].
          apply list_elem_of_In, elem_of_elements. set_solver.
        * simpl. by apply (local_keep_path fs category). }
  split; [exact Hscan|].
  unfold index_images. rewrite Hscan. simpl.
  rewrite difference_diag_L, elements_empty. simpl.
  eexists. split; [reflexivity|]. split; reflexivity.
Qed.

(** Scenario A of the specification, as a file tree and a store. *)
Definition scenario_fs : FS :=
  {| fs_files := ["cats/a.png"; "dogs/b.jpg"]; fs_dirs := ["cats"; "dogs"] |}.

Definition scenario_rows : list Entity :=
  [{| ent_id := 1; ent_path := Some "dogs/b.jpg" |};
   {| ent_id := 2; ent_path := Some "dogs/c.gif" |}].

Definition scope_all : Scope :=
  {| sc_category := None; sc_prefix := None; sc_clean := "" |}.

Definition scenario_local : gset string := {["cats/a.png"; "dogs/b.jpg"]}.
Definition scenario_indexed : gset string := {["dogs/b.jpg"; "dogs/c.gif"]}.

Lemma scenario_scan :
  index_scan scenario_fs (honest_client scenario_rows) None
  = inr (scope_all, scenario_local, scenario_indexed).
Proof. vm_compute. reflexivity. Qed.

Lemma index_images_idempotent_witness :
  index_scan scenario_fs (honest_client scenario_rows) None
  = inr (scope_all, scenario_local, scenario_indexed) /\
  index_scan scenario_fs
    (honest_client (apply_run (fun _ => 3%Z) scenario_rows
       (scenario_local ∖ scenario_indexed) (scenario_indexed ∖ scenario_local))) None
  = inr (scope_all, scenario_local, scenario_local).
Proof.
  assert (H : index_scan scenario_fs (honest_client scenario_rows) None
              = inr (scope_all, scenario_local, scenario_indexed))
    by (vm_compute; reflexivity).
  split; [exact H|].
  exact (proj1 (index_images_idempotent unit (fun _ => Some tt) (fun _ _ => true)
                  (fun _ => Some 0) 0 scenario_fs scenario_rows None (fun _ => 3%Z)
                  scope_all scenario_local scenario_indexed H)).
Defined.

(** ** C3 *)

(** C3 (code defect): an empty [category] is handled as no category, but
    the all-separator category ["/"] is stripped to [""] and still turns
    the prefix into ["/"]: no relative path starts with it, so both the
    local and the indexed sets come out empty instead of the whole-tree
    sets of Scenario A. *)
Theorem index_scan_separator_category :
  (forall fs c,
     match index_scan fs c (Some ""), index_scan fs c None with
     | inr (_, l1, i1), inr (_, l2, i2) => l1 = l2 /\ i1 = i2
     | inl e1, inl e2 => e1 = e2
     | _, _ => False
     end) /\
  index_scan scenario_fs (honest_client scenario_rows) (Some "/")
  = inr ({| sc_category := Some "/"; sc_prefix := Some "/"; sc_clean := "" |}, ∅, ∅) /\
  index_scan scenario_fs (honest_client scenario_rows) None
  = inr (scope_all, scenario_local, scenario_indexed).
Proof.
  split; [|split; [vm_compute; reflexivity | exact scenario_scan]].
  intros fs c. unfold index_scan, resolve_scope. simpl.
  destruct (get_all_file_paths c None); [|reflexivity].
  split; reflexivity.
Qed.

(** ** The add phase *)

(** Whether [get_embedding] succeeds on the text of a path. *)
Definition embeds {vec} (get_embedding : string -> option vec) (rel : string) : bool :=
  match get_embedding (splitext_root rel) with Some _ => true | None => false end.

Lemma embed_loop_spec {vec} (get_embedding : string -> option vec) (to_add : list string) :
  let '(es, fns, failed) := embed_loop vec get_embedding to_add in
  fns = List.filter (embeds get_embedding) to_add /\
  length es = length fns /\
  failed = length (List.filter (fun p => negb (embeds get_embedding p)) to_add).
Proof.
  induction to_add as [|rel rest IH]; [simpl; auto|].
  simpl. destruct (embed_loop vec get_embedding rest) as [[es fns] failed].
  destruct IH as (-> & Hlen & ->).
  destruct (get_embedding (splitext_root rel)) eqn:E;
    [assert (Hb : embeds get_embedding rel = true) by (unfold embeds; rewrite E; reflexivity)
    |assert (Hb : embeds get_embedding rel = false) by (unfold embeds; rewrite E; reflexivity)];
    rewrite Hb; simpl; auto.
Qed.

Lemma length_filter_split {A} (f : A -> bool) (l : list A) :
  (length (List.filter f l) + length (List.filter (fun x => negb (f x)) l))%nat = length l.
Proof.
  induction l as [|x l IH]; [reflexivity|]. simpl.
  destruct (f x); simpl; lia.
Qed.

(** ** C8 *)

(** C8: whatever the order in which [to_add] is visited, every path whose
    embedding fails adds one to the failure counter and the others are all
    embedded and handed to the insert; when that single insert raises, the
    report is 0 added and [len(to_add)] failed. *)
Theorem add_phase_failures (vec : Type) (get_embedding : string -> option vec)
  (insert_vectors : list vec -> list string -> bool) (to_add : list string) :
  let '(es, fns, failed) := embed_loop vec get_embedding to_add in
  fns = List.filter (embeds get_embedding) to_add /\
  failed = length (List.filter (fun p => negb (embeds get_embedding p)) to_add) /\
  (insert_vectors es fns = false ->
   add_phase vec get_embedding insert_vectors to_add = (0, length to_add)) /\
  (insert_vectors es fns = true ->
   add_phase vec get_embedding insert_vectors to_add = (length fns, failed)).
Proof.
  pose proof (embed_loop_spec get_embedding to_add) as Hspec.
  pose proof (length_filter_split (embeds get_embedding) to_add) as Hsplit.
  unfold add_phase.
  destruct (embed_loop vec get_embedding to_add) as [[es fns] failed] eqn:He.
  destruct Hspec as (Hf & Hlen & Hfail).
  split; [exact Hf|]. split; [exact Hfail|].
  destruct to_add as [|a rest].
  { simpl in He. injection He as <- <- <-. split; reflexivity. }
  destruct es as [|v es'].
  - simpl in Hlen. destruct fns; [|discriminate]. subst failed.
    rewrite <- Hf in Hsplit. change (length (@nil string)) with 0 in Hsplit.
    split; intros _; [f_equal; lia | reflexivity].
  - split; intros Hins; rewrite Hins; [|reflexivity].
    f_equal. subst fns failed. rewrite <- Hsplit. apply Nat.add_comm.
Qed.

Lemma add_phase_failures_witness :
  embed_loop unit (fun t => if String.eqb t "bad" then None else Some tt) ["bad.png"; "ok.png"]
  = ([tt], ["ok.png"], 1) /\
  add_phase unit (fun t => if String.eqb t "bad" then None else Some tt) (fun _ _ => false)
    ["bad.png"; "ok.png"] = (0, 2).
Proof.
  split; [reflexivity|].
  pose proof (add_phase_failures unit (fun t => if String.eqb t "bad" then None else Some tt)
                (fun _ _ => false) ["bad.png"; "ok.png"]) as H.
  simpl in H. destruct H as (_ & _ & H & _). apply H. reflexivity.
Defined.

(** ** C9 *)

Lemma get_all_file_paths_some c pre : exists s, get_all_file_paths c pre = Some s.
Proof. unfold get_all_file_paths. destruct (get_all_entities_iter c 1000); eauto. Qed.

(** C9: [get_all_file_paths] never raises, so the 500 branch of
    [index_images] for a failed scan is unreachable; when the scan raises,
    the answer is the empty set, the same as for an empty store, and every
    local file goes to [to_add] while nothing is deleted. *)
Theorem get_all_file_paths_never_raises :
  (forall c pre, get_all_file_paths c pre <> None) /\
  (forall (vec : Type) (get_embedding : string -> option vec)
          (insert_vectors : list vec -> list string -> bool)
          (delete_vectors : list string -> option nat) (count_after : nat)
          fs c category,
     index_images vec get_embedding insert_vectors delete_vectors count_after
       fs c category <> inl Err500Scan) /\
  (forall c pre, get_all_entities_iter c 1000 = None ->
     get_all_file_paths c pre = Some ∅ /\
     get_all_file_paths c pre = get_all_file_paths (honest_client []) pre) /\
  (forall fs c category sc local indexed,
     get_all_entities_iter c 1000 = None ->
     index_scan fs c category = inr (sc, local, indexed) ->
     indexed = ∅ /\ reconcile local indexed = (local, ∅)).
Proof.
  split; [|split; [|split]].
  - intros c pre. destruct (get_all_file_paths_some c pre) as [s ->]. discriminate.
  - intros vec ge ins del n fs c category.
    unfold index_images, index_scan.
    destruct (resolve_scope fs category) as [e|sc] eqn:Hr.
    + intros H. injection H as ->. unfold resolve_scope in Hr.
      destruct (truthy_opt category); [|discriminate].
      destruct (negb _); discriminate.
    + destruct (get_all_file_paths_some c (sc_prefix sc)) as [s ->].
      destruct (reconcile _ s). destruct (add_phase _ _ _ _). discriminate.
  - intros c pre Hfail. unfold get_all_file_paths. rewrite Hfail. split; reflexivity.
  - intros fs c category sc local indexed Hfail Hscan.
    unfold index_scan in Hscan. destruct (resolve_scope fs category); [discriminate|].
    unfold get_all_file_paths in Hscan. rewrite Hfail in Hscan.
    injection Hscan as _ _ <-. split; [reflexivity|].
    unfold reconcile. f_equal; set_solver.
Qed.

(** ** C10 *)

(** C10: the extension test lower-cases the file name first, so names
    equal up to case are recognised alike and ["A.PNG"] is recognised; the
    local set holds exactly the walked paths that pass the filters, as
    walked, and the paths handed to the insert are those of [to_add]
    unchanged: ["cats/A.PNG"] stays ["cats/A.PNG"]. *)
Theorem local_paths_case_insensitive_ext :
  (forall name name', lower name = lower name' -> is_image_name name = is_image_name name') /\
  is_image_name "A.PNG" = true /\
  (forall fs sc p,
     p ∈ local_paths fs sc <-> In p (walk fs (sc_clean sc)) /\ keep_local sc p = true) /\
  (forall (vec : Type) (get_embedding : string -> option vec) (to_add : list string),
     snd (fst (embed_loop vec get_embedding to_add))
     = List.filter (embeds get_embedding) to_add) /\
  local_paths {| fs_files := ["cats/A.PNG"]; fs_dirs := ["cats"] |} scope_all
  = {["cats/A.PNG"]}.
Proof.
  split; [|split; [reflexivity|split; [|split]]].
  - intros name name' H. unfold is_image_name. rewrite H. reflexivity.
  - apply elem_of_local_paths.
  - intros vec ge to_add. pose proof (embed_loop_spec ge to_add) as Hs.
    destruct (embed_loop vec ge to_add) as [[es fns] failed]. apply Hs.
  - vm_compute. reflexivity.
Qed.

(** ** The search fallback *)

Lemma any_path_hit_paths results :
  any_path results = match hit_paths results with [] => false | _ => true end.
Proof.
  induction results as [|r rs IH]; [reflexivity|].
  unfold any_path, hit_paths in *. simpl.
  destruct (hit_path r) as [p|]; simpl; [|exact IH].
  destruct (truthy p); simpl; [reflexivity | exact IH].
Qed.

Lemma filter_all_false {A} (f : A -> bool) (l : list A) :
  Forall (fun x => f x = false) l -> List.filter f l = [].
Proof. induction 1 as [|x l Hx _ IH]; simpl; [reflexivity | by rewrite Hx]. Qed.

Lemma search_response_unfiltered image_dir base category results :
  results <> [] -> filter_results image_dir base category results = [] ->
  search_response image_dir base category results =
  if negb (truthy_opt category && any_path results) && negb (any_path results) then []
  else match hit_paths results with
       | p :: _ => [construct_image_url image_dir p base]
       | [] => []
       end.
Proof.
  intros Hne Hf. unfold search_response. rewrite Hf.
  destruct results; [contradiction | reflexivity].
Qed.

(** ** C4 *)

(** C4 (as amended): for a category whose cleaned name is not empty, when
    the raw results are not empty and none of their paths starts with the
    category prefix, the response is the single URL of the first (nearest)
    raw result that has a non-empty path, and is empty when no raw result
    has one. *)
Theorem search_fallback (image_dir base c : string) (results : list Hit)
  (Hclean : truthy (strip_char sep c) = true) (Hne : results <> [])
  (Hnone : Forall (fun p => startswith p (strip_char sep c ++ "/") = false)
             (hit_paths results)) :
  search_response image_dir base (Some c) results =
  match hit_paths results with
  | p :: _ => [construct_image_url image_dir p base]
  | [] => []
  end.
Proof.
  assert (Hc : truthy c = true) by (destruct c; [discriminate | reflexivity]).
  rewrite search_response_unfiltered by
    (exact Hne ||
     (unfold filter_results; destruct results as [|r rs]; [contradiction|];
      cbv beta iota zeta; change (truthy_opt (Some c)) with (truthy c);
      rewrite Hc, Hclean, (filter_all_false _ _ Hnone); reflexivity)).
  rewrite any_path_hit_paths. change (truthy_opt (Some c)) with (truthy c). rewrite Hc.
  destruct (hit_paths results); reflexivity.
Qed.

Lemma search_fallback_witness :
  truthy (strip_char sep "dogs") = true /\
  search_response "images" "http://h" (Some "dogs")
    [{| hit_id := 1; hit_path := Some "cats/a.png" |}]
  = ["http://h/images/cats/a.png"].
Proof.
  split; [reflexivity|].
  apply (search_fallback "images" "http://h" "dogs"
           [{| hit_id := 1; hit_path := Some "cats/a.png" |}]);
    [reflexivity | discriminate | repeat constructor].
Defined.

(** C4 (counterexample): the filter for ["dogs"] matches none of the one
    raw result, which has no [file_path]; the response is empty rather
    than one result. *)
Lemma search_fallback_no_path :
  search_response "images" "http://h" (Some "dogs") [{| hit_id := 1; hit_path := None |}]
  = [] /\
  length (search_response "images" "http://h" (Some "dogs")
            [{| hit_id := 1; hit_path := None |}]) <> 1.
Proof. split; [reflexivity | simpl; lia]. Qed.

(** ** Delete by paths *)

Lemma concat_slices (m : nat) : forall (l : list string),
  length l <= m * 500 ->
  concat (map (fun k => slice (k * 500) 500 l) (seq 0 m)) = l.
Proof.
  induction m as [|m IH]; intros l Hl.
  - destruct l; [reflexivity | simpl in Hl; lia].
  - simpl. rewrite <- seq_shift, map_map.
    rewrite (map_ext (fun k => slice (S k * 500) 500 l)
                     (fun k => slice (k * 500) 500 (skipn 500 l))).
    + rewrite IH by (rewrite length_skipn; lia). unfold slice. simpl.
      apply firstn_skipn.
    + intros k. unfold slice. rewrite skipn_skipn.
      replace (S k * 500) with (k * 500 + 500) by lia. reflexivity.
Qed.

Lemma batches_cover (file_paths : list string) :
  Forall (fun b => length b <= 500) (batches 500 file_paths) /\
  concat (batches 500 file_paths) = file_paths.
Proof.
  unfold batches, batch_starts. rewrite map_map. split.
  - apply List.Forall_forall. intros b Hb. apply in_map_iff in Hb as [k [<- _]].
    apply firstn_le_length.
  - apply concat_slices.
    pose proof (Nat.div_mod_eq (length file_paths + 500 - 1) 500).
    pose proof (Nat.mod_upper_bound (length file_paths + 500 - 1) 500).
    lia.
Qed.

(** What one batch's log says: the lookup's ids decide whether the
    delete call is made, and with which ids. *)
Definition batch_ok (ev : BatchEvent) : Prop :=
  match ev_delete ev with
  | None => ids_of (ev_lookup ev) = []
  | Some (ids, _) => ids = ids_of (ev_lookup ev) /\ ids <> []
  end.

Lemma delete_batch_spec St q d (s : St) b :
  let '(s', n, ev) := delete_batch St q d s b in
  ev_batch ev = b /\ batch_ok ev /\ n = ev_deleted ev.
Proof.
  unfold delete_batch, batch_ok.
  destruct (ids_of (q s (query_expr_for_ids b) (length b + 5))) as [|i ids] eqn:Hids.
  - simpl. rewrite Hids. auto.
  - destruct (d s (i :: ids)) as [s' r]. simpl. rewrite Hids.
    split; [reflexivity|]. split; [split; [reflexivity | discriminate] | reflexivity].
Qed.

Lemma delete_loop_spec St q d file_paths : forall starts (s : St),
  let '(s', total, evs) := delete_loop St q d s starts file_paths in
  map ev_batch evs = map (fun i => slice i 500 file_paths) starts /\
  Forall batch_ok evs /\ total = list_sum (map ev_deleted evs).
Proof.
  induction starts as [|i starts IH]; intros s; [simpl; auto|].
  simpl. pose proof (delete_batch_spec St q d s (slice i 500 file_paths)) as Hb.
  destruct (delete_batch St q d s (slice i 500 file_paths)) as [[s1 n1] ev].
  destruct Hb as (Hb & Hok & ->).
  specialize (IH s1). destruct (delete_loop St q d s1 starts file_paths) as [[s2 n2] evs].
  destruct IH as (Hm & Hf & ->). simpl. rewrite Hb, Hm. auto.
Qed.

(** ** C5 *)

(** C5 (as amended): the paths are cut into consecutive batches of at most
    500; every batch is looked up and logged whatever happened to the
    previous ones; the delete call of a batch is made exactly when its
    lookup yields ids, with those ids; and the result is the sum, over the
    batches, of the length of the delete call's answer when that answer is
    a list of primary keys (0 for any other answer or an exception). *)
Theorem delete_by_paths_batches (St : Type)
  (query_by_filter : St -> string -> nat -> option (list Entity))
  (delete_by_ids : St -> list Z -> St * DeleteResult)
  (s : St) (file_paths : list string) :
  let '(s', total, evs) :=
    delete_vectors_by_file_paths St query_by_filter delete_by_ids s file_paths in
  map ev_batch evs = batches 500 file_paths /\
  Forall (fun b => length b <= 500) (batches 500 file_paths) /\
  concat (batches 500 file_paths) = file_paths /\
  Forall batch_ok evs /\
  total = list_sum (map ev_deleted evs).
Proof.
  destruct (batches_cover file_paths) as [Hlen Hcat].
  unfold delete_vectors_by_file_paths.
  destruct file_paths as [|p ps] eqn:Hp.
  - simpl. auto.
  - pose proof (delete_loop_spec St query_by_filter delete_by_ids (p :: ps)
                  (batch_starts 500 (length (p :: ps))) s) as H.
    destruct (delete_loop _ _ _ _ _ _) as [[s' total] evs].
    destruct H as (Hm & Hf & Ht). split; [|auto].
    rewrite Hm. reflexivity.
Qed.

(** What the store reports as deleted in its answer to [client.delete]. *)
Definition store_confirmed (r : DeleteResult) : nat :=
  match r with DelPKs l => length l | DelDict n => n | DelRaised => 0 end.

(** C5 (counterexample): the store finds the row of ["dogs/c.gif"],
    deletes it and answers [{"delete_count": 1}]; the call returns 0. *)
Lemma delete_by_paths_dict_answer :
  let '(_, total, evs) :=
    delete_vectors_by_file_paths unit
      (fun _ _ _ => Some [{| ent_id := 7; ent_path := Some "dogs/c.gif" |}])
      (fun s ids => (s, DelDict (length ids))) tt ["dogs/c.gif"] in
  total = 0 /\
  list_sum (map (fun ev => match ev_delete ev with
                           | Some (_, r) => store_confirmed r
                           | None => 0
                           end) evs) = 1.
Proof. vm_compute. split; reflexivity. Qed.

(* ================================================================== *)
(** * Further properties of the code *)

(** ** Image URLs *)

Lemma length_snoc_sep b : String.length (b ++ "/") = S (String.length b).
Proof. induction b as [|c b IH]; [reflexivity | exact (f_equal S IH)]. Qed.

Lemma str_app_assoc (a b c : string) : (a ++ b) ++ c = a ++ b ++ c.
Proof. induction a as [|x a IH]; [reflexivity | exact (f_equal (String x) IH)]. Qed.

Lemma endswith_snoc_sep b : endswith (b ++ "/") "/" = true.
Proof.
  unfold endswith. rewrite length_snoc_sep. simpl (String.length "/").
  replace (S (String.length b) - 1) with (String.length b) by lia.
  apply andb_true_intro. split; [apply Nat.leb_le; lia|].
  induction b as [|c b IH]; [reflexivity | exact IH].
Qed.

(** [construct_image_url] adds exactly one separator after a base that
    lacks one, and gives the same URL as for the base with its trailing
    separator. *)
Theorem construct_image_url_single_slash (image_dir filename base : string)
  (Hbase : endswith base "/" = false) :
  construct_image_url image_dir filename base = base ++ "/" ++ image_dir ++ "/" ++ filename /\
  construct_image_url image_dir filename (base ++ "/")
  = construct_image_url image_dir filename base.
Proof.
  unfold construct_image_url. rewrite Hbase, endswith_snoc_sep.
  split; rewrite ?str_app_assoc; reflexivity.
Qed.

Lemma construct_image_url_single_slash_witness :
  endswith "http://h" "/" = false /\
  construct_image_url "images" "cats/a.png" "http://h/"
  = construct_image_url "images" "cats/a.png" "http://h".
Proof.
  split; [reflexivity|].
  exact (proj2 (construct_image_url_single_slash "images" "cats/a.png" "http://h" eq_refl)).
Defined.

(** ** Search responses *)

Lemma search_response_filtered image_dir base category results u us :
  filter_results image_dir base category results = u :: us ->
  search_response image_dir base category results = u :: us.
Proof.
  intros Hf. unfold search_response. rewrite Hf. destruct results; reflexivity.
Qed.

Lemma length_filter_le {A} (f : A -> bool) (l : list A) :
  length (List.filter f l) <= length l.
Proof. induction l as [|x l IH]; simpl; [lia | destruct (f x); simpl; lia]. Qed.

Lemma hit_paths_spec results p :
  In p (hit_paths results) <->
  exists r, In r results /\ hit_path r = Some p /\ p <> "".
Proof.
  induction results as [|r rs IH]; [simpl; split; [tauto | intros (? & [] & _)]|].
  unfold hit_paths in *. simpl.
  destruct (hit_path r) as [q|] eqn:Hr; simpl.
  - destruct (truthy q) eqn:Hq; simpl.
    + rewrite IH. split.
      * intros [<-|(r' & Hin & Hp & Hne)]; [|eauto].
        exists r. split; [auto|]. split; [exact Hr|].
        unfold truthy in Hq. apply negb_true_iff, String.eqb_neq in Hq. exact Hq.
      * intros (r' & [<-|Hin] & Hp & Hne); [|eauto].
        left. congruence.
    + rewrite IH. split; intros (r' & Hin & Hp & Hne); [eauto|].
      destruct Hin as [<-|Hin]; [|eauto].
      exfalso. rewrite Hr in Hp. injection Hp as ->.
      unfold truthy in Hq. apply negb_false_iff, String.eqb_eq in Hq. contradiction.
  - rewrite IH. split; intros (r' & Hin & Hp & Hne); [eauto|].
    destruct Hin as [<-|Hin]; [congruence | eauto].
Qed.

Lemma hit_paths_cons r rs :
  hit_paths (r :: rs) =
  match (if truthy_opt (hit_path r) then hit_path r else None) with
  | Some p => p :: hit_paths rs
  | None => hit_paths rs
  end.
Proof. reflexivity. Qed.

Lemma length_hit_paths results : length (hit_paths results) <= length results.
Proof.
  induction results as [|r rs IH]; [simpl; lia|]. rewrite hit_paths_cons.
  destruct (if truthy_opt (hit_path r) then hit_path r else None); cbn [length]; lia.
Qed.

Lemma filter_results_from_hits image_dir base category results :
  exists ps, filter_results image_dir base category results
             = map (fun p => construct_image_url image_dir p base) ps /\
  length ps <= length (hit_paths results) /\ incl ps (hit_paths results).
Proof.
  unfold filter_results. destruct results as [|r rs].
  { exists []. split; [reflexivity|]. split; [simpl; lia | intros ? []]. }
  destruct (truthy_opt category).
  - cbv zeta. destruct (truthy _).
    + eexists. split; [reflexivity|]. split; [apply length_filter_le|].
      intros p Hp. apply filter_In in Hp as [Hp _]. exact Hp.
    + eexists. split; [reflexivity|]. split; [lia | intros p Hp; exact Hp].
  - eexists. split; [reflexivity|]. split; [lia | intros p Hp; exact Hp].
Qed.

(** Every URL of a search response is the URL of the path of one of the
    raw hits, and there are never more URLs than raw hits. *)
Theorem search_response_sound (image_dir base : string) (category : option string)
  (results : list Hit) :
  length (search_response image_dir base category results) <= length results /\
  forall u, In u (search_response image_dir base category results) ->
  exists r p, In r results /\ hit_path r = Some p /\ p <> "" /\
              u = construct_image_url image_dir p base.
Proof.
  assert (Hps : exists ps, search_response image_dir base category results
                           = map (fun p => construct_image_url image_dir p base) ps /\
                length ps <= length (hit_paths results) /\ incl ps (hit_paths results)).
  { destruct (filter_results image_dir base category results) as [|u us] eqn:Hf.
    - destruct results as [|r rs].
      + exists []. split; [reflexivity|]. split; [simpl; lia | intros ? []].
      + rewrite search_response_unfiltered by (discriminate || exact Hf).
        destruct (negb _ && negb _).
        * exists []. split; [reflexivity|]. split; [simpl; lia | intros ? []].
        * destruct (hit_paths (r :: rs)) as [|p ps] eqn:Hh.
          -- exists []. split; [reflexivity|]. split; [simpl; lia | intros ? []].
          -- exists [p]. split; [reflexivity|]. split; [simpl; lia|].
             intros q [<-|[]]. left. reflexivity.
    - rewrite (search_response_filtered _ _ _ _ _ _ Hf), <- Hf.
      apply filter_results_from_hits. }
  destruct Hps as (ps & -> & Hlen & Hincl).
  split.
  - rewrite length_map. pose proof (length_hit_paths results). lia.
  - intros u Hu. apply in_map_iff in Hu as [p [<- Hp]].
    apply Hincl, hit_paths_spec in Hp as (r & Hin & Hr & Hne).
    exists r, p. auto.
Qed.

Lemma filter_results_all image_dir base category results :
  (category = None \/ exists c, category = Some c /\ strip_char sep c = "") ->
  filter_results image_dir base category results
  = map (fun p => construct_image_url image_dir p base) (hit_paths results).
Proof.
  intros Hcat. unfold filter_results. destruct results as [|r rs]; [reflexivity|].
  destruct Hcat as [->|(c & -> & Hs)]; [reflexivity|].
  cbv zeta. rewrite Hs. change (truthy "") with false.
  destruct (truthy_opt (Some c)); reflexivity.
Qed.

(** Without a category, or with one that strips to nothing (such as
    ["/"]), the search returns the URLs of all raw hits that carry a path,
    in the store's order, and nothing else. *)
Theorem search_without_category (image_dir base : string) (category : option string)
  (results : list Hit)
  (Hcat : category = None \/ exists c, category = Some c /\ strip_char sep c = "") :
  search_response image_dir base category results
  = map (fun p => construct_image_url image_dir p base) (hit_paths results).
Proof.
  pose proof (filter_results_all image_dir base category results Hcat) as Hf.
  destruct (hit_paths results) as [|p ps] eqn:Hh.
  - destruct results as [|r rs]; [reflexivity|].
    rewrite search_response_unfiltered by (discriminate || exact Hf).
    rewrite any_path_hit_paths, Hh. destruct (truthy_opt category); reflexivity.
  - exact (search_response_filtered _ _ _ _ _ _ Hf).
Qed.

Lemma search_without_category_witness :
  search_response "images" "http://h" (Some "/")
    [{| hit_id := 1; hit_path := Some "cats/a.png" |}; {| hit_id := 2; hit_path := None |};
     {| hit_id := 3; hit_path := Some "dogs/b.jpg" |}]
  = ["http://h/images/cats/a.png"; "http://h/images/dogs/b.jpg"].
Proof.
  apply (search_without_category "images" "http://h" (Some "/")).
  right. exists "/". split; reflexivity.
Defined.

(** With a category whose stripped name is not empty, as soon as one raw
    hit's path starts with the category prefix, the response is the URLs
    of exactly those hits, in the store's order (no fallback). *)
Theorem search_with_category_match (image_dir base c : string) (results : list Hit)
  (Hclean : truthy (strip_char sep c) = true)
  (Hmatch : Exists (fun p => startswith p (strip_char sep c ++ "/") = true)
              (hit_paths results)) :
  search_response image_dir base (Some c) results
  = map (fun p => construct_image_url image_dir p base)
        (List.filter (fun p => startswith p (strip_char sep c ++ "/")) (hit_paths results)).
Proof.
  assert (Hc : truthy c = true) by (destruct c; [discriminate | reflexivity]).
  assert (Hf : filter_results image_dir base (Some c) results
               = map (fun p => construct_image_url image_dir p base)
                   (List.filter (fun p => startswith p (strip_char sep c ++ "/"))
                      (hit_paths results))).
  { unfold filter_results. destruct results as [|r rs]; [inversion Hmatch|].
    cbv zeta. change (truthy_opt (Some c)) with (truthy c). rewrite Hc, Hclean.
    reflexivity. }
  destruct (List.filter (fun p => startswith p (strip_char sep c ++ "/")) (hit_paths results))
    as [|p ps] eqn:Hfl.
  - exfalso. apply Exists_exists in Hmatch as [p [Hin Hp]].
    apply list_elem_of_In in Hin.
    assert (Hin' : In p (List.filter (fun p => startswith p (strip_char sep c ++ "/"))
                          (hit_paths results))) by (apply filter_In; auto).
    rewrite Hfl in Hin'. exact Hin'.
  - exact (search_response_filtered _ _ _ _ _ _ Hf).
Qed.

Lemma search_with_category_match_witness :
  search_response "images" "http://h" (Some "/dogs/")
    [{| hit_id := 1; hit_path := Some "cats/a.png" |};
     {| hit_id := 2; hit_path := Some "dogs/b.jpg" |}]
  = ["http://h/images/dogs/b.jpg"].
Proof.
  apply (search_with_category_match "images" "http://h" "/dogs/"); [reflexivity|].
  vm_compute. constructor 2. constructor 1. reflexivity.
Defined.

(** ** The bulk scan under any reported count *)



(** Over a store whose pages are slices of its rows, whatever row count
    the statistics report, the scan returns the first [1000 * ceil(n/1000)]
    rows in storage order: an under-reported count silently drops the
    rows past that many pages. *)
Theorem get_all_entities_any_count (n : nat) (rows : list Entity) :
  get_all_entities_iter (client_of (Some n) rows) 1000
  = Some (firstn (1000 * ((n + 1000 - 1) / 1000)) rows).
Proof. exact (scan_exact (Some n) rows). Qed.

(** ** [get_all_file_paths] stays in its scope *)

Lemma file_paths_scope (c : Client) (pre : option string)
  (paths : gset string) (H : get_all_file_paths c pre = Some paths) :
  forall p, p ∈ paths -> p <> "" /\
    match pre with Some q => q = "" \/ startswith p q = true | None => True end.
Proof.
  intros p Hp. unfold get_all_file_paths in H.
  destruct (get_all_entities_iter c 1000); injection H as <-; [|set_solver].
  apply elem_of_collect_paths in Hp as [e [_ Hk]].
  apply keep_path_spec in Hk as (_ & Ht & Hpre). split.
  - intros ->. discriminate.
  - destruct pre as [q|]; [|exact I]. destruct Hpre as [Hq|Hq]; [left|right; exact Hq].
    unfold truthy in Hq. apply negb_false_iff, String.eqb_eq in Hq. exact Hq.
Qed.

(** Whatever the store answers, every path of [get_all_file_paths] is
    non-empty and starts with the prefix, when a non-empty prefix is given. *)
Theorem get_all_file_paths_in_scope (c : Client) (pre : option string)
  (paths : gset string) (H : get_all_file_paths c pre = Some paths) :
  forall p, p ∈ paths -> p <> "" /\
    match pre with Some q => q = "" \/ startswith p q = true | None => True end.
Proof. exact (file_paths_scope c pre paths H). Qed.

Lemma get_all_file_paths_in_scope_witness :
  get_all_file_paths (honest_client scenario_rows) (Some "dogs/")
  = Some {["dogs/b.jpg"; "dogs/c.gif"]} /\
  ("dogs/c.gif" <> "" /\ ("dogs/" = "" \/ startswith "dogs/c.gif" "dogs/" = true)).
Proof.
  assert (H : get_all_file_paths (honest_client scenario_rows) (Some "dogs/")
              = Some {["dogs/b.jpg"; "dogs/c.gif"]}) by (vm_compute; reflexivity).
  split; [exact H|].
  apply (get_all_file_paths_in_scope _ _ _ H). set_solver.
Defined.

(** For a category, every path [index_images] would add or delete starts
    with the category prefix [clean/], whatever the store returns: the
    reconciliation never touches records of another category. *)
Theorem index_scan_category_scoped (fs : FS) (c : Client) (cat : string)
  (sc : Scope) (local indexed : gset string)
  (Hcat : truthy cat = true)
  (H : index_scan fs c (Some cat) = inr (sc, local, indexed)) :
  sc_prefix sc = Some (strip_char sep cat ++ "/") /\
  forall p, p ∈ fst (reconcile local indexed) ∪ snd (reconcile local indexed) ->
  startswith p (strip_char sep cat ++ "/") = true.
Proof.
  unfold index_scan in H. destruct (resolve_scope fs (Some cat)) as [e|sc'] eqn:Hsc;
    [discriminate|].
  destruct (get_all_file_paths c (sc_prefix sc')) as [ind|] eqn:Hg; [|discriminate].
  injection H as <- <- <-.
  assert (Hpre : sc_prefix sc' = Some (strip_char sep cat ++ "/") /\
                 sc_category sc' = Some cat).
  { unfold resolve_scope in Hsc. change (truthy_opt (Some cat)) with (truthy cat) in Hsc.
    rewrite Hcat in Hsc. cbv zeta in Hsc.
    destruct (negb _); [discriminate|]. injection Hsc as <-. split; reflexivity. }
  destruct Hpre as [Hpre Hcat'].
  split; [exact Hpre|].
  intros p Hp. simpl in Hp. apply elem_of_union in Hp as [Hp|Hp];
    apply elem_of_difference in Hp as [Hp _].
  - apply elem_of_local_paths in Hp as [_ Hk]. unfold keep_local in Hk.
    rewrite Hcat', Hpre in Hk. change (truthy_opt (Some cat)) with (truthy cat) in Hk.
    rewrite Hcat in Hk. apply andb_prop in Hk as [_ Hk]. exact Hk.
  - rewrite Hpre in Hg. destruct (file_paths_scope _ _ _ Hg p Hp) as [_ [Hq|Hq]].
    + exfalso. pose proof (truthy_sep_suffix (strip_char sep cat)) as Ht.
      rewrite Hq in Ht. discriminate.
    + exact Hq.
Qed.

Lemma index_scan_category_scoped_witness :
  sc_prefix {| sc_category := Some "dogs"; sc_prefix := Some "dogs/"; sc_clean := "dogs" |}
  = Some (strip_char sep "dogs" ++ "/").
Proof.
  assert (H : index_scan scenario_fs (honest_client scenario_rows) (Some "dogs")
              = inr ({| sc_category := Some "dogs"; sc_prefix := Some "dogs/";
                        sc_clean := "dogs" |},
                     {["dogs/b.jpg"]}, {["dogs/b.jpg"; "dogs/c.gif"]}))
    by (vm_compute; reflexivity).
  exact (proj1 (index_scan_category_scoped scenario_fs _ "dogs" _ _ _ eq_refl H)).
Defined.

(** ** The counters of the [index_images] report *)

Lemma add_phase_total (vec : Type) (get_embedding : string -> option vec)
  (insert_vectors : list vec -> list string -> bool) (to_add : list string) :
  let '(added, failed) := add_phase vec get_embedding insert_vectors to_add in
  added + failed = length to_add.
Proof.
  pose proof (embed_loop_spec get_embedding to_add) as Hspec.
  pose proof (length_filter_split (embeds get_embedding) to_add) as Hsplit.
  unfold add_phase. destruct to_add as [|a rest]; [reflexivity|].
  destruct (embed_loop vec get_embedding (a :: rest)) as [[es fns] failed].
  destruct Hspec as (Hf & Hlen & Hfail).
  destruct es as [|v es'].
  - cbn [length] in Hlen. destruct fns; [|discriminate].
    rewrite <- Hf, <- Hfail in Hsplit. change (length (@nil string)) with 0 in Hsplit.
    cbv beta iota. lia.
  - rewrite <- Hf, <- Hfail in Hsplit. cbv beta iota.
    destruct (insert_vectors (v :: es') fns); lia.
Qed.

(** Whatever the embedding provider and the store do, the report of
    [index_images] counts every file to add exactly once, as added or as
    failed; it counts the scanned local files and the indexed files of the
    scope; nothing is added when every local file is already indexed and
    nothing is deleted when every indexed file is still on disk. *)
Theorem index_images_report_counts (vec : Type) (get_embedding : string -> option vec)
  (insert_vectors : list vec -> list string -> bool)
  (delete_vectors_by_file_paths : list string -> option nat) (count_after : nat)
  (fs : FS) (c : Client) (category : option string)
  (sc : Scope) (local indexed : gset string)
  (H : index_scan fs c category = inr (sc, local, indexed)) :
  exists r,
  index_images vec get_embedding insert_vectors delete_vectors_by_file_paths
    count_after fs c category = inr r /\
  new_files_added_to_milvus r + failed_to_add_count r = size (local ∖ indexed) /\
  files_on_disk_scanned r = size local /\
  files_in_milvus_before_op_for_category r = size indexed /\
  total_in_milvus_after_op r = count_after /\
  (local ⊆ indexed -> new_files_added_to_milvus r = 0 /\ failed_to_add_count r = 0) /\
  (indexed ⊆ local -> files_deleted_from_milvus r = 0).
Proof.
  unfold index_images. rewrite H. cbn [reconcile].
  pose proof (add_phase_total vec get_embedding insert_vectors (elements (local ∖ indexed)))
    as Htot.
  destruct (add_phase vec get_embedding insert_vectors (elements (local ∖ indexed)))
    as [added failed] eqn:Hadd.
  eexists. split; [reflexivity|]. cbn.
  split; [exact Htot|]. split; [reflexivity|]. split; [reflexivity|].
  split; [reflexivity|]. split.
  - intros Hsub. assert (E : local ∖ indexed = ∅) by (apply leibniz_equiv; set_solver).
    rewrite E, elements_empty in Hadd. cbn in Hadd. injection Hadd as <- <-. auto.
  - intros Hsub. assert (E : indexed ∖ local = ∅) by (apply leibniz_equiv; set_solver).
    rewrite E, elements_empty. reflexivity.
Qed.

Lemma index_images_report_counts_witness :
  exists r,
  index_images nat (fun _ => Some 0%nat) (fun _ _ => false) (fun l => Some (length l)) 2
    scenario_fs (honest_client scenario_rows) None = inr r /\
  new_files_added_to_milvus r + failed_to_add_count r = size (scenario_local ∖ scenario_indexed).
Proof.
  destruct (index_images_report_counts nat (fun _ => Some 0%nat) (fun _ _ => false)
              (fun l => Some (length l)) 2 scenario_fs (honest_client scenario_rows) None
              scope_all scenario_local scenario_indexed scenario_scan)
    as (r & Hr & Hc & _).
  exists r. split; assumption.
Defined.

(** ** The text embedded for a file: [os.path.splitext(relative_path)[0]] *)

Lemma get_some_lt k s c : String.get k s = Some c -> k < String.length s.
Proof.
  revert k; induction s as [|a s IH]; intros [|k] H; simpl in *;
    try discriminate; [lia | apply IH in H; lia].
Qed.

Lemma rfind_aux_spec c s i best :
  rfind_aux c s i best = best \/
  exists k, rfind_aux c s i best = Z.of_nat (i + k) /\ String.get k s = Some c.
Proof.
  revert i best; induction s as [|d s IH]; intros i best; [left; reflexivity|].
  simpl. destruct (IH (S i) (if Ascii.eqb c d then Z.of_nat i else best))
    as [E | [k [E G]]]; rewrite E.
  - destruct (Ascii.eqb c d) eqn:Hcd; [right | left; reflexivity].
    exists 0. apply Ascii.eqb_eq in Hcd. subst d. split; [f_equal; lia | reflexivity].
  - right. exists (S k). split; [f_equal; lia | exact G].
Qed.

Lemma rfind_spec c s :
  rfind c s = (-1)%Z \/ exists k, rfind c s = Z.of_nat k /\ String.get k s = Some c.
Proof. apply rfind_aux_spec. Qed.

Lemma str_app_nil_r (s : string) : s ++ "" = s.
Proof. induction s as [|c s IH]; [reflexivity | exact (f_equal (String c) IH)]. Qed.

Lemma substring_full (s : string) : substring 0 (String.length s) s = s.
Proof. induction s as [|c s IH]; [reflexivity | exact (f_equal (String c) IH)]. Qed.

Lemma substring_split (p : string) (k : nat) :
  k <= String.length p -> p = substring 0 k p ++ substring k (String.length p - k) p.
Proof.
  revert k; induction p as [|a p IH]; intros [|k] Hk; simpl in Hk.
  - reflexivity.
  - lia.
  - exact (f_equal (String a) (eq_sym (substring_full p))).
  - exact (f_equal (String a) (IH k ltac:(lia))).
Qed.

Lemma substring_get (p : string) (k m : nat) (c : ascii) :
  String.get k p = Some c -> substring k (S m) p = String c (substring (S k) m p).
Proof.
  revert k; induction p as [|a p IH]; intros [|k] H; simpl in H; try discriminate.
  - injection H as <-. destruct m; reflexivity.
  - exact (IH k H).
Qed.

Lemma splitext_root_parts (p : string) :
  (exists ext, p = splitext_root p ++ ext /\
               (ext = "" \/ exists e, ext = String "." e)) /\
  (p <> "" -> splitext_root p <> "").
Proof.
  unfold splitext_root.
  destruct (Z.ltb (rfind sep p) (rfind "."%char p)) eqn:Hlt;
    [| split; [exists ""; split; [symmetry; apply str_app_nil_r | left; reflexivity]
              | exact (fun H => H)]].
  apply Z.ltb_lt in Hlt.
  destruct (rfind_spec "."%char p) as [Hd | [k [Hd Hg]]].
  { exfalso. destruct (rfind_spec sep p) as [Hs | [ks [Hs _]]]; lia. }
  rewrite Hd in *. rewrite Nat2Z.id.
  set (start := Z.to_nat (rfind sep p + 1)).
  destruct (existsb _ (seq start (k - start))) eqn:He;
    [| split; [exists ""; split; [symmetry; apply str_app_nil_r | left; reflexivity]
              | exact (fun H => H)]].
  apply existsb_exists in He as [x [Hx _]]. apply in_seq in Hx.
  pose proof (get_some_lt _ _ _ Hg) as Hk.
  split.
  - exists (substring k (String.length p - k) p). split.
    + apply substring_split. lia.
    + right. replace (String.length p - k) with (S (String.length p - k - 1)) by lia.
      rewrite (substring_get _ _ _ _ Hg). eexists. reflexivity.
  - intros Hp. destruct p as [|a p']; [contradiction|].
    destruct k as [|k']; [lia|]. simpl. discriminate.
Qed.

(** [os.path.splitext] splits a path into the embedded text and an
    extension that is empty or starts with a dot; the text is never empty
    for a non-empty path. *)
Theorem splitext_root_split (p : string) :
  (exists ext, p = splitext_root p ++ ext /\
               (ext = "" \/ exists e, ext = String "." e)) /\
  (p <> "" -> splitext_root p <> "").
Proof. exact (splitext_root_parts p). Qed.

(** For every file of the local scan, the [if not text] check of
    [get_embedding] never fires: the embedding of a file fails only when
    the provider call does. *)
Theorem local_paths_embed_text {perr vec} (provider : string -> perr + vec)
  (fs : FS) (sc : Scope) (p : string) (Hp : p ∈ local_paths fs sc) :
  get_embedding_checked provider (splitext_root p) =
  match provider (splitext_root p) with
  | inr v => inr v
  | inl e => inl (EmbedProviderError e)
  end.
Proof.
  apply elem_of_local_paths in Hp as [_ Hk].
  assert (Hne : p <> "") by (intros ->; rewrite keep_local_empty in Hk; discriminate).
  pose proof (proj2 (splitext_root_parts p) Hne) as Hr.
  unfold get_embedding_checked, truthy.
  destruct (String.eqb (splitext_root p) "") eqn:E;
    [apply String.eqb_eq in E; contradiction | reflexivity].
Qed.

Lemma local_paths_embed_text_witness :
  get_embedding_checked (fun s => @inr unit nat (String.length s)) (splitext_root "cats/a.png")
  = inr 6.
Proof.
  assert (Hl : local_paths scenario_fs scope_all = scenario_local) by (vm_compute; reflexivity).
  assert (Hp : "cats/a.png" ∈ local_paths scenario_fs scope_all)
    by (rewrite Hl; unfold scenario_local; set_solver).
  rewrite (local_paths_embed_text (fun s => @inr unit nat (String.length s)) _ _ _ Hp).
  reflexivity.
Defined.

(** ** The arguments of [insert_vectors] in [index_images] *)

Lemma embed_loop_aligned {vec} (get_embedding : string -> option vec) (to_add : list string) :
  let '(es, fns, _) := embed_loop vec get_embedding to_add in
  Forall2 (fun v p => get_embedding (splitext_root p) = Some v) es fns.
Proof.
  induction to_add as [|rel rest IH]; [constructor|].
  simpl. destruct (embed_loop vec get_embedding rest) as [[es fns] failed].
  destruct (get_embedding (splitext_root rel)) eqn:E; [constructor; assumption | exact IH].
Qed.

Lemma in_combine_Forall2 {A B} (R : A -> B -> Prop) l1 l2 a b :
  Forall2 R l1 l2 -> In (a, b) (combine l1 l2) -> R a b /\ In b l2.
Proof.
  induction 1 as [|x y l1 l2 Hxy _ IH]; simpl; [contradiction|].
  intros [E | Hin]; [injection E as -> ->; auto|].
  destruct (IH Hin); auto.
Qed.

(** When [index_images] calls [insert_vectors], the guard of its line 158
    never fires, and every record [{"embedding": vec, "file_path": path}]
    it inserts pairs a file to add with the embedding of that file's own
    text. *)
Theorem add_phase_insert_args {vec} (get_embedding : string -> option vec)
  (client_insert : list (vec * string) -> option (list Z))
  (to_add : list string) (es : list vec) (fns : list string) (failed : nat)
  (He : embed_loop vec get_embedding to_add = (es, fns, failed)) (Hne : es <> []) :
  insert_vectors_checked client_insert es fns =
  match client_insert (combine es fns) with
  | Some ids => inr ids
  | None => inl InsertClientError
  end /\
  forall v p, In (v, p) (combine es fns) ->
  In p to_add /\ get_embedding (splitext_root p) = Some v.
Proof.
  pose proof (embed_loop_spec get_embedding to_add) as Hspec.
  pose proof (embed_loop_aligned get_embedding to_add) as Hal.
  rewrite He in Hspec, Hal. destruct Hspec as (Hf & Hlen & _).
  split.
  - unfold insert_vectors_checked.
    destruct es as [|v es']; [contradiction|].
    destruct fns as [|p fns']; [discriminate|].
    rewrite Hlen, Nat.eqb_refl. reflexivity.
  - intros v p Hin. destruct (in_combine_Forall2 _ _ _ _ _ Hal Hin) as [Hv Hp].
    split; [|exact Hv]. rewrite Hf in Hp. apply filter_In in Hp. apply Hp.
Qed.

Lemma add_phase_insert_args_witness :
  insert_vectors_checked (fun d => Some (map (fun _ => 7%Z) d)) [1] ["a.png"] = inr [7%Z].
Proof.
  assert (He : embed_loop nat (fun s => Some (String.length s)) ["a.png"]
               = ([1], ["a.png"], 0)) by reflexivity.
  rewrite (proj1 (add_phase_insert_args (fun s => Some (String.length s))
                    (fun d => Some (map (fun _ => 7%Z) d)) _ _ _ _ He ltac:(discriminate))).
  reflexivity.
Defined.

(** ** The id-lookup filter reads back as its batch *)

Lemma str_app_cons (c : ascii) (s t : string) : (String c s ++ t) = String c (s ++ t).
Proof. reflexivity. Qed.

Lemma str_length_app (s t : string) :
  String.length (s ++ t) = String.length s + String.length t.
Proof. induction s as [|c s IH]; [reflexivity | exact (f_equal S IH)]. Qed.

Lemma read_lit_escape (p rest : string)
  (Hr : match rest with String c _ => Ascii.eqb c "'"%char = false | EmptyString => True end) :
  read_lit (escape_quotes p ++ String "'" rest) = Some (p, rest).
Proof.
  induction p as [|c p IH].
  - change (read_lit (String "'" rest) = Some ("", rest)).
    destruct rest as [|c r]; [reflexivity|]. simpl. rewrite Hr. reflexivity.
  - cbn [escape_quotes]. destruct (Ascii.eqb c "'"%char) eqn:E.
    + apply Ascii.eqb_eq in E. subst c. rewrite !str_app_cons. simpl.
      rewrite IH. reflexivity.
    + rewrite str_app_cons. simpl. rewrite E, IH. reflexivity.
Qed.

Lemma read_list_join (batch : list string) (fuel : nat) :
  batch <> [] -> length batch <= fuel ->
  read_list fuel
    (join_comma (map (fun p => "'" ++ escape_quotes p ++ "'") batch) ++ "]")
  = Some batch.
Proof.
  revert fuel; induction batch as [|x rest IH]; intros fuel Hne Hf; [contradiction|].
  destruct fuel as [|fuel]; [simpl in Hf; lia|].
  destruct rest as [|y rest'].
  - assert (E : (join_comma (map (fun p => "'" ++ escape_quotes p ++ "'") [x]) ++ "]")
                = String "'" (escape_quotes x ++ String "'" "]")).
    { cbn [map join_comma]. rewrite !str_app_assoc. reflexivity. }
    rewrite E. simpl. rewrite read_lit_escape by reflexivity. reflexivity.
  - assert (E : (join_comma (map (fun p => "'" ++ escape_quotes p ++ "'") (x :: y :: rest'))
                 ++ "]")
                = String "'" (escape_quotes x ++ String "'" (String "," (String " "
                    (join_comma (map (fun p => "'" ++ escape_quotes p ++ "'") (y :: rest'))
                     ++ "]"))))).
    { cbn [map join_comma]. rewrite !str_app_assoc. reflexivity. }
    rewrite E.
    remember (join_comma (map (fun p => "'" ++ escape_quotes p ++ "'") (y :: rest')) ++ "]")
      as J eqn:HJ.
    simpl. rewrite read_lit_escape by reflexivity. simpl.
    subst J. rewrite (IH fuel) by (discriminate || (simpl in Hf |- *; lia)). reflexivity.
Qed.

Lemma length_join_quoted (batch : list string) (t : string) :
  length batch <=
  String.length (join_comma (map (fun p => "'" ++ escape_quotes p ++ "'") batch) ++ t).
Proof.
  induction batch as [|x rest IH]; [simpl; lia|].
  destruct rest as [|y rest'].
  - cbn [map join_comma]. rewrite !str_length_app. simpl. lia.
  - cbn [map join_comma]. cbn [map join_comma] in IH.
    rewrite !str_length_app. rewrite str_length_app in IH. simpl. simpl in IH. lia.
Qed.

Lemma strip_prefix_app (pre s : string) : strip_prefix pre (pre ++ s) = Some s.
Proof.
  induction pre as [|a pre IH]; [destruct s; reflexivity|].
  simpl. rewrite Ascii.eqb_refl. exact IH.
Qed.

(** Under the quote-doubling convention, the filter that
    [delete_vectors_by_file_paths] builds for a batch reads back as exactly
    the batch's paths, in order, whatever quotes the paths contain: no path
    can close its literal early or inject a clause. *)
Theorem query_expr_for_ids_reads_back (batch : list string) (Hne : batch <> []) :
  parse_in_filter (query_expr_for_ids batch) = Some batch.
Proof.
  unfold parse_in_filter, query_expr_for_ids. rewrite strip_prefix_app.
  apply read_list_join; [exact Hne | apply length_join_quoted].
Qed.

Lemma query_expr_for_ids_reads_back_witness :
  parse_in_filter (query_expr_for_ids ["it's/a.png"; "b', 'c.png"])
  = Some ["it's/a.png"; "b', 'c.png"].
Proof. apply query_expr_for_ids_reads_back. discriminate. Defined.

(** ** The errors of the two endpoints *)

(** [index_images] fails only with the 404 of a category whose cleaned
    directory does not exist; every other run produces a report. *)
Theorem index_images_errors (vec : Type) (get_embedding : string -> option vec)
  (insert_vectors : list vec -> list string -> bool)
  (delete_vectors_by_file_paths : list string -> option nat) (count_after : nat)
  (fs : FS) (c : Client) (category : option string) (e : index_error) :
  index_images vec get_embedding insert_vectors delete_vectors_by_file_paths
    count_after fs c category = inl e <->
  exists cat, category = Some cat /\ truthy cat = true /\
    isdir fs (strip_char sep cat) = false /\ e = Err404 (strip_char sep cat).
Proof.
  unfold index_images, index_scan, resolve_scope.
  destruct (truthy_opt category) eqn:Ht.
  - destruct category as [cat|]; [|discriminate]. change (truthy cat = true) in Ht.
    cbv zeta. destruct (isdir fs (strip_char sep cat)) eqn:Hd; simpl.
    + destruct (get_all_file_paths_some c (Some (strip_char sep cat ++ "/"))) as [s Hs].
      rewrite Hs. cbn [reconcile]. destruct (add_phase _ _ _ _). split; [discriminate|].
      intros (cat' & Hc & _ & Hd' & _). injection Hc as <-. congruence.
    + split; [intros H; injection H as <-; eauto|].
      intros (cat' & Hc & _ & _ & ->). injection Hc as <-. reflexivity.
  - destruct (get_all_file_paths_some c None) as [s Hs]. simpl. rewrite Hs.
    cbn [reconcile]. destruct (add_phase _ _ _ _).
    split; [discriminate|].
    intros (cat' & -> & Htc & _). simpl in Ht. congruence.
Qed.

(** The errors of [/search/]: 503 exactly when the store service is
    missing, 500 when the API key is missing, and otherwise 400 exactly
    for an empty query or an embedding call that raised a [ValueError]
    (subclass); every other failure is a 500, and a run that does not fail
    answers the filtered URLs of the store's hits. *)
Theorem search_images_errors {perr vec} (service_up : bool) (api_key : option string)
  (is_value_error : perr -> bool) (provider : string -> perr + vec)
  (search_vectors : vec -> nat -> option (list Hit))
  (image_dir base q : string) (n : nat) (category : option string) :
  (search_images service_up api_key is_value_error provider search_vectors
     image_dir base q n category = inl 503 <-> service_up = false) /\
  (forall code, search_images service_up api_key is_value_error provider search_vectors
     image_dir base q n category = inl code -> code = 400 \/ code = 500 \/ code = 503) /\
  (service_up = true -> truthy_opt api_key = false ->
   search_images service_up api_key is_value_error provider search_vectors
     image_dir base q n category = inl 500) /\
  (service_up = true -> truthy_opt api_key = true ->
   (search_images service_up api_key is_value_error provider search_vectors
      image_dir base q n category = inl 400 <->
    q = "" \/ exists e, provider q = inl e /\ is_value_error e = true) /\
   (forall urls, search_images service_up api_key is_value_error provider search_vectors
      image_dir base q n category = inr urls ->
    exists v results, q <> "" /\ provider q = inr v /\
      search_vectors v n = Some results /\
      urls = search_response image_dir base category results)).
Proof.
  unfold search_images.
  destruct service_up; [|simpl; split; [split; reflexivity|];
    split; [intros code H; injection H as <-; auto|];
    split; intros H; discriminate H].
  cbn [negb]. destruct (truthy_opt api_key) eqn:Hk; cbn [negb].
  2:{ split; [split; discriminate|].
      split; [intros code H; injection H as <-; auto|].
      split; [reflexivity|]. intros _ H. discriminate H. }
  unfold get_embedding_checked, truthy.
  destruct (String.eqb q "") eqn:Hq; cbn [negb].
  - apply String.eqb_eq in Hq. subst q.
    split; [split; discriminate|].
    split; [intros code H; injection H as <-; auto|].
    split; [intros _ H; discriminate H|].
    intros _ _. split; [split; [intros _; left; reflexivity | reflexivity]|].
    intros urls H. discriminate H.
  - apply String.eqb_neq in Hq.
    split; [|split; [|split; [intros _ H; discriminate H|intros _ _]]].
    + destruct (provider q) as [e|v];
        [destruct (is_value_error e)|destruct (search_vectors v n)];
        split; discriminate.
    + intros code. destruct (provider q) as [e|v];
        [destruct (is_value_error e)|destruct (search_vectors v n)];
        intros H; try discriminate H; injection H as <-; auto.
    + split.
      * split.
        -- destruct (provider q) as [e|v] eqn:Hp;
             [destruct (is_value_error e) eqn:Hv|destruct (search_vectors v n)];
             intros H; try discriminate H; right; exists e; auto.
        -- intros [H|(e & He & Hv)]; [contradiction|]. rewrite He, Hv. reflexivity.
      * intros urls. destruct (provider q) as [e|v];
          [destruct (is_value_error e)|destruct (search_vectors v n) as [results|] eqn:Hs];
          intros H; try discriminate H.
        injection H as <-. exists v, results. auto.
Qed.

Lemma search_images_errors_witness :
  search_images (perr := bool) (vec := nat) true (Some "sk") (fun e => e)
    (fun _ => inl true) (fun _ _ => Some []) "images" "http://h" "cat" 5 None = inl 400.
Proof.
  apply (proj1 (proj2 (proj2 (proj2 (search_images_errors (perr := bool) (vec := nat) true
    (Some "sk") (fun e => e) (fun _ => inl true) (fun _ _ => Some []) "images" "http://h"
    "cat" 5 None))) eq_refl eq_refl)).
  right. exists true. split; reflexivity.
Defined.
